(** * Cegar4Ariadne: refinement tree, counterexample search and CEGAR driver

    A shallow embedding of [refinementTree.hpp] and [cegar.hpp].  The Ariadne
    numeric kernel, the fixed-branch tree and the adjacency digraph are
    external to the two files; they appear here as an interface class and as
    two small modules written from the specification. *)

From stdpp Require Import base option list gmap.

(** * Three-valued logic (Ariadne's validated Kleenean) *)

(** Modelled from the spec: Ariadne's [ValidatedKleenean] and its lower and
    upper variants (numeric/logical.hpp is not part of the repository).  The
    three verdicts, [definitely], [possibly] and negation. *)
Inductive Kleenean : Set := KTrue | KFalse | KIndeterminate.

Global Instance Kleenean_eq_dec : EqDecision Kleenean.
Proof. solve_decision. Defined.

Definition definitely (k : Kleenean) : bool :=
  match k with KTrue => true | _ => false end.

Definition possibly (k : Kleenean) : bool :=
  match k with KFalse => false | _ => true end.

Definition knot (k : Kleenean) : Kleenean :=
  match k with
  | KTrue => KFalse
  | KFalse => KTrue
  | KIndeterminate => KIndeterminate
  end.

(** A C++ [bool] converted to a Kleenean ([return true;]). *)
Definition kbool (b : bool) : Kleenean := if b then KTrue else KFalse.

(** Sequential loops over a container whose body may throw. *)
Fixpoint forEach {A S : Type} (body : S → A → option S) (l : list A) (s : S)
  : option S :=
  match l with
  | [] => Some s
  | x :: l' => s' ← body s x; forEach body l' s'
  end.

(** * The numeric kernel consumed by the refinement tree *)

(** The box arithmetic of Ariadne, taken as an interface: the operations the
    two source files call, with the types they are called at. *)
Class Numeric := {
  Enclosure : Type;        (* Ariadne::Box< IntervalT > and its upper boxes *)
  PointT : Type;           (* Ariadne::Point< Bounds< FloatDP > > *)
  ConstraintSet : Type;    (* Ariadne::ConstraintSet *)
  VectorFunction : Type;   (* Ariadne::EffectiveVectorFunction *)
  Effort : Type;           (* Ariadne::Effort *)
  box_zero : Enclosure;                                   (* Box::zero( 0 ) *)
  box_equal : Enclosure → Enclosure → Kleenean;           (* b1 == b2 *)
  box_differs : Enclosure → Enclosure → Kleenean;         (* b1 != b2 *)
  check : Kleenean → Effort → Kleenean;                   (* k.check( effort ) *)
  intersection : Enclosure → Enclosure → Enclosure;       (* Ariadne::intersection *)
  is_empty : Enclosure → Kleenean;                        (* b.is_empty() *)
  box_image : Enclosure → VectorFunction → Enclosure;     (* Ariadne::image *)
  overlaps : ConstraintSet → Enclosure → Kleenean;        (* cs.overlaps( b ) *)
  centre : Enclosure → PointT;                            (* b.centre() *)
  contains : Enclosure → PointT → Kleenean;               (* b.contains( pt ) *)
  evaluate : VectorFunction → PointT → PointT             (* f.evaluate( pt ) *)
}.

(** * Fixed-branch tree with branching factor two *)

Module tree.

(** Modelled from the spec: [tree::LinkedFixedBranchTree< T, 2 >]
    (linkedFixedBranchTree.hpp is missing).  Every interior node has
    exactly two children; a node handle is the node's position, the path of
    child indices from the root. *)
Inductive LinkedFixedBranchTree (T : Type) : Type :=
| Leaf (x : T)
| Branch (x : T) (c0 c1 : LinkedFixedBranchTree T).
Arguments Leaf {T} x.
Arguments Branch {T} x c0 c1.

Abbreviation NodeT := (list bool).

Section ops.
Context {T : Type}.

Definition root : NodeT := [].

Definition label (t : LinkedFixedBranchTree T) : T :=
  match t with Leaf x => x | Branch x _ _ => x end.

Fixpoint subtree (t : LinkedFixedBranchTree T) (n : NodeT) {struct n}
  : option (LinkedFixedBranchTree T) :=
  match n with
  | [] => Some t
  | b :: n' =>
      match t with
      | Leaf _ => None
      | Branch _ c0 c1 => subtree (if b then c1 else c0) n'
      end
  end.

Definition value (t : LinkedFixedBranchTree T) (n : NodeT) : option T :=
  label <$> subtree t n.

Definition isLeaf (t : LinkedFixedBranchTree T) (n : NodeT) : bool :=
  match subtree t n with Some (Leaf _) => true | _ => false end.

Definition children (t : LinkedFixedBranchTree T) (n : NodeT) : list NodeT :=
  match subtree t n with
  | Some (Branch _ _ _) => [n ++ [false]; n ++ [true]]
  | _ => []
  end.

(** [expand] fails when the node is not a leaf. *)
Fixpoint expand (t : LinkedFixedBranchTree T) (n : NodeT) (vs : T * T)
         {struct n} : option (LinkedFixedBranchTree T) :=
  match n, t with
  | [], Leaf x => Some (Branch x (Leaf vs.1) (Leaf vs.2))
  | [], Branch _ _ _ => None
  | _ :: _, Leaf _ => None
  | false :: n', Branch x c0 c1 => c0' ← expand c0 n' vs; Some (Branch x c0' c1)
  | true :: n', Branch x c0 c1 => c1' ← expand c1 n' vs; Some (Branch x c0 c1')
  end.

Fixpoint size (t : LinkedFixedBranchTree T) : nat :=
  match t with
  | Leaf _ => 1
  | Branch _ c0 c1 => S (size c0 + size c1)
  end.
End ops.
End tree.

(** * Adjacency digraph over vertex handles *)

Module graph.

Abbreviation VertexT := nat.

(** Modelled from the spec: [graph::AdjacencyDiGraph] (adjacencyDiGraph.hpp is
    missing).  Vertices are handles carrying an attached value; edges
    are kept in insertion order, which is the iteration order of the in- and
    out-edge ranges. *)
Record AdjacencyDiGraph (V : Type) : Type := MkGraph {
  vertexMap : gmap VertexT V;
  edgeList : list (VertexT * VertexT)
}.
Arguments MkGraph {V} _ _.
Arguments vertexMap {V} _.
Arguments edgeList {V} _.

Section ops.
Context {V : Type} `{EqDecision V}.

Definition empty : AdjacencyDiGraph V := MkGraph ∅ [].

Definition value (g : AdjacencyDiGraph V) (v : VertexT) : option V :=
  vertexMap g !! v.

(** A new vertex gets a handle no live vertex has. *)
Definition addVertex (g : AdjacencyDiGraph V) (x : V)
  : AdjacencyDiGraph V * VertexT :=
  let v := fresh (dom (vertexMap g)) in
  (MkGraph (<[v := x]> (vertexMap g)) (edgeList g), v).

Definition removeVertex (g : AdjacencyDiGraph V) (v : VertexT)
  : AdjacencyDiGraph V :=
  MkGraph (delete v (vertexMap g))
          (filter (λ e, e.1 ≠ v ∧ e.2 ≠ v) (edgeList g)).

(** Idempotent; self-loops allowed. *)
Definition addEdge (g : AdjacencyDiGraph V) (s t : VertexT)
  : AdjacencyDiGraph V :=
  if decide ((s, t) ∈ edgeList g) then g
  else MkGraph (vertexMap g) (edgeList g ++ [(s, t)]).

Definition inEdges (g : AdjacencyDiGraph V) (v : VertexT)
  : list (VertexT * VertexT) :=
  filter (λ e, e.2 = v) (edgeList g).

Definition outEdges (g : AdjacencyDiGraph V) (v : VertexT)
  : list (VertexT * VertexT) :=
  filter (λ e, e.1 = v) (edgeList g).

Definition source (e : VertexT * VertexT) : VertexT := e.1.
Definition target (e : VertexT * VertexT) : VertexT := e.2.

Definition findVertex (g : AdjacencyDiGraph V) (x : V) : option VertexT :=
  (λ r, r.2.1) <$> list_find (λ kv, kv.2 = x) (map_to_list (vertexMap g)).
End ops.
End graph.

(** * refinementTree.hpp *)

Module Rtree.
Section defs.
Context `{Num : Numeric}.

(** [RefinementTree::TreeValue]: a box and a safety variable. *)
Record TreeValue : Type := MkTreeValue {
  mEnclosure : Enclosure;
  mSafe : Kleenean
}.

(** The default constructor [TreeValue()]. *)
Definition TreeValue_default : TreeValue := MkTreeValue box_zero (kbool false).

Definition getEnclosure (tv : TreeValue) : Enclosure := mEnclosure tv.
Definition isSafe (tv : TreeValue) : Kleenean := mSafe tv.

Abbreviation RefinementT := (tree.LinkedFixedBranchTree TreeValue).
Abbreviation MappingT := (graph.AdjacencyDiGraph tree.NodeT).
Abbreviation NodeT := graph.VertexT.

Record RefinementTree : Type := MkRefinementTree {
  mConstraints : ConstraintSet;
  mDynamics : VectorFunction;
  mEffort : Effort;
  mRefinements : RefinementT;
  mMappings : MappingT
}.

Definition withMappings (rt : RefinementTree) (g : MappingT) : RefinementTree :=
  MkRefinementTree (mConstraints rt) (mDynamics rt) (mEffort rt)
                   (mRefinements rt) g.

Definition withRefinements (rt : RefinementTree) (t : RefinementT)
  : RefinementTree :=
  MkRefinementTree (mConstraints rt) (mDynamics rt) (mEffort rt)
                   t (mMappings rt).

(** Accessors. *)
Definition constraints (rt : RefinementTree) : ConstraintSet := mConstraints rt.
Definition dynamics (rt : RefinementTree) : VectorFunction := mDynamics rt.
Definition tree (rt : RefinementTree) : RefinementT := mRefinements rt.
Definition leafMapping (rt : RefinementTree) : MappingT := mMappings rt.

(** [nodeValue]: the tree value stored at vertex [v]; [None] stands for the
    undefined behaviour of reading through a handle that is not live. *)
Definition nodeValue (rt : RefinementTree) (v : NodeT) : option TreeValue :=
  treev ← graph.value (mMappings rt) v;
  tree.value (mRefinements rt) treev.

Definition nodesEqual (rt : RefinementTree) (n1 n2 : NodeT) : option Kleenean :=
  tv1 ← nodeValue rt n1;
  tv2 ← nodeValue rt n2;
  Some (check (box_equal (getEnclosure tv1) (getEnclosure tv2)) (mEffort rt)).

(** [imageRecursive], by recursion on the subtree rooted at [to]: the match
    on [sub] is the test [tree::isLeaf] and, for an interior node, the loop
    over [tree::children].  [None] is the [std::logic_error] thrown for a
    leaf without a graph vertex. *)
Fixpoint imageRecursive_sub (g : MappingT) (from : Enclosure)
         (sub : RefinementT) (to : tree.NodeT) : option (list NodeT) :=
  let boxTo := getEnclosure (tree.label sub) in
  let inter := intersection from boxTo in
  let isEmpty := is_empty inter in
  if definitely isEmpty then Some []
  else
    match sub with
    | tree.Leaf _ =>
        iGraphNode ← graph.findVertex g to;
        Some [iGraphNode]
    | tree.Branch _ c0 c1 =>
        rns0 ← imageRecursive_sub g from c0 (to ++ [false]);
        rns1 ← imageRecursive_sub g from c1 (to ++ [true]);
        Some (rns0 ++ rns1)
    end.

Definition imageRecursive (rt : RefinementTree) (from : Enclosure)
           (to : tree.NodeT) : option (list NodeT) :=
  sub ← tree.subtree (mRefinements rt) to;
  imageRecursive_sub (mMappings rt) from sub to.

Definition image (rt : RefinementTree) (from : Enclosure) : option (list NodeT) :=
  imageRecursive rt from tree.root.

(** [leaves( treev )]: all leaves in the subtree at [treev], by the same
    recursion; [None] is the [std::logic_error] it throws. *)
Fixpoint leaves_sub (g : MappingT) (sub : RefinementT) (treev : tree.NodeT)
  : option (list NodeT) :=
  match sub with
  | tree.Leaf _ =>
      iv ← graph.findVertex g treev;
      Some [iv]
  | tree.Branch _ c0 c1 =>
      rls0 ← leaves_sub g c0 (treev ++ [false]);
      rls1 ← leaves_sub g c1 (treev ++ [true]);
      Some (rls0 ++ rls1)
  end.

Definition leaves_tree (rt : RefinementTree) (treev : tree.NodeT)
  : option (list NodeT) :=
  sub ← tree.subtree (mRefinements rt) treev;
  leaves_sub (mMappings rt) sub treev.

(** [leaves( v )]: all leaves in the subtree at graph vertex [v]. *)
Definition leaves (rt : RefinementTree) (v : NodeT) : option (list NodeT) :=
  treev ← graph.value (mMappings rt) v;
  leaves_tree rt treev.

(** [leaves()]: all leaves of the tree. *)
Definition leaves_all (rt : RefinementTree) : option (list NodeT) :=
  leaves_tree rt tree.root.

Definition preimage (rt : RefinementTree) (from : NodeT) : list NodeT :=
  graph.source <$> graph.inEdges (mMappings rt) from.

Definition postimage (rt : RefinementTree) (from : NodeT) : list NodeT :=
  graph.target <$> graph.outEdges (mMappings rt) from.

Definition isReachable (rt : RefinementTree) (src trg : NodeT) : option Kleenean :=
  srcv ← nodeValue rt src;
  trgv ← nodeValue rt trg;
  let srcBox := getEnclosure srcv in
  let trgBox := getEnclosure trgv in
  let ubMapped := box_image srcBox (mDynamics rt) in
  let mapIntersection := intersection ubMapped trgBox in
  let doesInter := knot (is_empty mapIntersection) in
  Some doesInter.

(** The constructor: a single root leaf, its vertex, and a self-loop when
    the root possibly maps into itself. *)
Definition new (initial : Enclosure) (cs : ConstraintSet)
           (dyn : VectorFunction) (effort : Effort) : option RefinementTree :=
  let t := tree.Leaf (MkTreeValue initial (check (overlaps cs initial) effort)) in
  let '(g, initialNode) := graph.addVertex graph.empty tree.root in
  let rt := MkRefinementTree cs dyn effort t g in
  k ← isReachable rt initialNode initialNode;
  Some (if possibly k
        then withMappings rt (graph.addEdge g initialNode initialNode)
        else rt).

(** [IRefinementStrategy::refine], the only method of the interface. *)
Definition IRefinementStrategy : Type := Enclosure → list Enclosure.

(** [std::transform] into the [std::array< TreeValue, 2 >]: slots the
    strategy does not fill keep the default tree value; more than two
    boxes write past the array, which is undefined. *)
Definition transform_tvals (rt : RefinementTree) (refined : list Enclosure)
  : option (TreeValue * TreeValue) :=
  let mk e := MkTreeValue e (check (overlaps (mConstraints rt) e) (mEffort rt)) in
  match refined with
  | [] => Some (TreeValue_default, TreeValue_default)
  | [e0] => Some (mk e0, TreeValue_default)
  | [e0; e1] => Some (mk e0, mk e1)
  | _ => None
  end.

(** One graph vertex per child, in child order. *)
Definition addChildVertices (g : MappingT) (cs : list tree.NodeT)
  : MappingT * list NodeT :=
  foldl (λ acc c, let '(g', ivadd) := graph.addVertex acc.1 c in
                  (g', acc.2 ++ [ivadd]))
        (g, []) cs.

(** The body of the two innermost loops of [refine]:
    [if( possibly( isReachable( src, trg ) ) ) graph::addEdge( ... )]. *)
Definition linkIfReachable (rt : RefinementTree) (src trg : NodeT)
  : option RefinementTree :=
  k ← isReachable rt src trg;
  Some (if possibly k
        then withMappings rt (graph.addEdge (mMappings rt) src trg)
        else rt).

(** [refine].  [None] stands for a failure on the way: a handle that is not
    live, the expansion of a node that is not a leaf, a strategy that yields
    more than two boxes, or the exception of [leaves]. *)
Definition refine (rt : RefinementTree) (v : NodeT) (r : IRefinementStrategy)
  : option RefinementTree :=
  treev ← graph.value (mMappings rt) v;
  tv ← tree.value (mRefinements rt) treev;
  let obox := getEnclosure tv in
  let refined := r obox in
  tvals ← transform_tvals rt refined;
  t' ← tree.expand (mRefinements rt) treev tvals;
  let rt1 := withRefinements rt t' in
  let cs := tree.children (mRefinements rt1) treev in
  let '(g2, refinedNodes) := addChildVertices (mMappings rt1) cs in
  let rt2 := withMappings rt1 g2 in
  let pres := preimage rt2 v ++ [v] in
  let posts := postimage rt2 v ++ [v] in
  rt3 ← forEach (λ s refined,
           s1 ← forEach (λ s pre,
                  ls ← leaves s pre;
                  forEach (λ s preLeaf, linkIfReachable s preLeaf refined) ls s)
                pres s;
           forEach (λ s post,
                  ls ← leaves s post;
                  forEach (λ s postLeaf, linkIfReachable s refined postLeaf) ls s)
                posts s1)
         refinedNodes rt2;
  Some (withMappings rt3 (graph.removeVertex (mMappings rt3) v)).
End defs.
End Rtree.

(** * refinementTree.hpp: the first search, spuriousness check and driver

    The three function templates at the end of refinementTree.hpp, written
    against the tree of that file.  Their output to [std::cout] is left
    out. *)

Module RtreeCegar.
Section defs.
Context `{Num : Numeric}.

(** [std::find_if] over the path with
    [definitely( rtree.nodesEqual( *iImgBegin, n ) )]: whether the search
    stops before the end of the path. *)
Fixpoint findLoop (rtree : Rtree.RefinementTree) (n : graph.VertexT)
         (path : list graph.VertexT) : option bool :=
  match path with
  | [] => Some false
  | m :: path' =>
      areEqual ← Rtree.nodesEqual rtree n m;
      if definitely areEqual then Some true else findLoop rtree n path'
  end.

(** [findCounterexample] of refinementTree.hpp; [fuel] bounds the depth of
    the recursion. *)
Fixpoint findCounterexample (fuel : nat) (rtree : Rtree.RefinementTree)
         (img path : list graph.VertexT) : option (list graph.VertexT) :=
  match fuel with
  | O => None
  | S fuel' =>
      (fix loop (img : list graph.VertexT) : option (list graph.VertexT) :=
         match img with
         | [] => Some []
         | n :: img' =>
             tv ← Rtree.nodeValue rtree n;
             if negb (definitely (Rtree.isSafe tv)) then Some (path ++ [n])
             else
               match findLoop rtree n path with
               | None => None
               | Some true => loop img'
               | Some false =>
                   let copyPath := path ++ [n] in
                   let posts := Rtree.postimage rtree n in
                   cex ← findCounterexample fuel' rtree posts copyPath;
                   match cex with
                   | _ :: _ => Some cex
                   | [] => loop img'
                   end
               end
         end) img
  end.

(** The [while] loop of [isSpurious] over [imagePosts]: the first post whose
    box possibly contains the mapped centre, [None] for the end of the
    range. *)
Fixpoint firstContaining (rtree : Rtree.RefinementTree) (mappedCenter : PointT)
         (imagePosts : list graph.VertexT) : option (option graph.VertexT) :=
  match imagePosts with
  | [] => Some None
  | ipost :: imagePosts' =>
      tv ← Rtree.nodeValue rtree ipost;
      if possibly (contains (Rtree.getEnclosure tv) mappedCenter)
      then Some (Some ipost)
      else firstContaining rtree mappedCenter imagePosts'
  end.

(** [isSpurious] of refinementTree.hpp, by recursion on the counterexample
    range, which each call shortens by one. *)
Fixpoint isSpurious (rtree : Rtree.RefinementTree) (counter : list graph.VertexT)
         (image : list graph.VertexT) (effort : Effort) {struct counter}
  : option Kleenean :=
  (fix loop (image : list graph.VertexT) : option Kleenean :=
     match image with
     | [] => Some (kbool true)
     | beginImage :: image' =>
         let imagePosts := Rtree.postimage rtree beginImage in
         tv ← Rtree.nodeValue rtree beginImage;
         let mappedCenter :=
           evaluate (Rtree.dynamics rtree) (centre (Rtree.getEnclosure tv)) in
         oipost ← firstContaining rtree mappedCenter imagePosts;
         match oipost with
         | None => Some (kbool true)
         | Some ipost =>
             doesContinue ←
               match counter with
               | [] => Some (kbool true)
               | _ :: counter' => isSpurious rtree counter' [ipost] effort
               end;
             if definitely doesContinue then Some (kbool false)
             else loop image'
         end
     end) image.

(** [cegar] of refinementTree.hpp: the image range is the caller's and is
    not refreshed; all nodes of the counterexample but the last are
    refined.  [fuel] bounds the iterations, [depth] the search. *)
Fixpoint cegar (fuel depth : nat) (rtree : Rtree.RefinementTree)
         (image : list graph.VertexT) (effort : Effort)
         (refinementStrat : Rtree.IRefinementStrategy) (maxNodes : nat)
  : option (list graph.VertexT) :=
  match fuel with
  | O => None
  | S fuel' =>
      if bool_decide (tree.size (Rtree.tree rtree) < maxNodes) then
        counterexample ← findCounterexample depth rtree image [];
        match counterexample with
        | [] => Some []
        | _ :: _ =>
            spurious ← isSpurious rtree counterexample image effort;
            if definitely (knot spurious) then Some counterexample
            else
              rtree' ← forEach (λ rt n, Rtree.refine rt n refinementStrat)
                               (take (length counterexample - 1) counterexample)
                               rtree;
              cegar fuel' depth rtree' image effort refinementStrat maxNodes
        end
      else Some []
  end.
End defs.
End RtreeCegar.

(** * A one-dimensional exact kernel

    Closed integer intervals [lo, hi] with dynamics [x ↦ x + k]; every
    predicate is decided exactly.  It is used to run the definitions on
    concrete inputs. *)

Module Interval1D.
Local Open Scope Z_scope.

Definition box : Type := Z * Z.

Definition inter (a b : box) : box := (Z.max a.1 b.1, Z.min a.2 b.2).

(** Overlap of interiors, as [ConstraintSet::overlaps] has it for a box that
    only touches the safe set at a boundary point. *)
Definition meets_interior (cs b : box) : bool :=
  bool_decide (Z.max cs.1 b.1 < Z.min cs.2 b.2).

Global Instance kernel : Numeric := {|
  Enclosure := box;
  PointT := Z;
  ConstraintSet := box;
  VectorFunction := Z;
  Effort := nat;
  box_zero := (0, 0);
  box_equal a b := kbool (bool_decide (a = b));
  box_differs a b := kbool (bool_decide (a ≠ b));
  check k _ := k;
  intersection := inter;
  is_empty b := kbool (bool_decide (b.2 < b.1));
  box_image b k := (b.1 + k, b.2 + k);
  overlaps cs b := kbool (meets_interior cs b);
  centre b := (b.1 + b.2) `div` 2;
  contains b p := kbool (bool_decide (b.1 ≤ p ≤ b.2));
  evaluate k p := p + k
|}.

(** Bisection at the midpoint. *)
Definition bisect (b : box) : list box :=
  let m := (b.1 + b.2) `div` 2 in [(b.1, m); (m, b.2)].
End Interval1D.

(** * cegar.hpp *)

Module Cegar.

(** The value attached to a graph vertex in the revision of the refinement
    tree that cegar.hpp is written against: an inside value naming a tree
    node, or the outside sink. *)
Inductive GraphValue (TreeNodeT : Type) : Type :=
| InsideGraphValue (treeNode : TreeNodeT)
| OutsideGraphValue.
Arguments InsideGraphValue {TreeNodeT} treeNode.
Arguments OutsideGraphValue {TreeNodeT}.

(** The members of [RefinementTree< E >] that cegar.hpp calls and that
    refinementTree.hpp, in the revision embedded above, does not define at
    these types; they are taken as an interface. *)
Class RefinementTreeApi `{Num : Numeric} := {
  RT : Type;                       (* RefinementTree< E > *)
  NodeT : Type;                    (* RefinementTree< E >::NodeT *)
  TreeNodeT : Type;                (* RefinementTree< E >::RefinementT::NodeT *)
  InteriorTreeValue : Type;        (* InteriorTreeValue< E > *)
  IRefinement : Type;              (* IRefinement< E > *)
  id : InteriorTreeValue → nat;
  getEnclosure : InteriorTreeValue → Enclosure;
  (* graph::value( rtree.leafMapping(), n ) *)
  graphValue : RT → NodeT → GraphValue TreeNodeT;
  (* tree::value( rtree.tree(), tn ) *)
  treeValue : RT → TreeNodeT → InteriorTreeValue;
  (* tree::root( rtree.tree() ) *)
  treeRoot : RT → TreeNodeT;
  (* rtree.tree().size() *)
  treeSize : RT → nat;
  equal : RT → NodeT → NodeT → bool;
  isSafe : RT → NodeT → Kleenean;
  postimage : RT → NodeT → list NodeT;
  relates : ∀ {X : Type}, RT → NodeT → X → (Enclosure → X → Kleenean) → Kleenean;
  initialEnclosure : RT → Enclosure;
  dynamics : RT → VectorFunction;
  image : RT → Enclosure → list NodeT;
  imageFrom : RT → Enclosure → TreeNodeT → list NodeT;
  refine : RT → NodeT → IRefinement → RT
}.

Section defs.
Context `{Api : RefinementTreeApi}.

(** Modelled from the spec: [RefinementTree::nodeValue] of the revision
    cegar.hpp is written against, which is missing (refinementTree.hpp has
    the earlier accessor, [Rtree.nodeValue]).  [None] denotes the implicit
    outside sink; otherwise the tree value of the vertex's tree node is
    returned. *)
Definition nodeValue (rtree : RT) (h : NodeT) : option InteriorTreeValue :=
  match graphValue rtree h with
  | InsideGraphValue tn => Some (treeValue rtree tn)
  | OutsideGraphValue => None
  end.

(** [NodeComparator::operator()]. *)
Definition NodeComparator (mRtree : RT) (n1 n2 : NodeT) : bool :=
  let otval1 := nodeValue mRtree n1 in
  let otval2 := nodeValue mRtree n2 in
  match otval1, otval2 with
  | None, None => true
  | None, Some _ | Some _, None => false
  | Some tval1, Some tval2 => bool_decide (id tval1 < id tval2)
  end.

(** [findCounterexample].  [fuel] bounds the depth of the recursion; the
    inner loop runs over the range [iImgBegin, iImgEnd). *)
Fixpoint findCounterexample (fuel : nat) (rtree : RT) (img : list NodeT)
         (path : list NodeT) : option (list NodeT) :=
  match fuel with
  | O => None
  | S fuel' =>
      (fix loop (img : list NodeT) : option (list NodeT) :=
         match img with
         | [] => Some []
         | n :: img' =>
             if existsb (equal rtree n) path then loop img'
             else
               let copyPath := path ++ [n] in
               if negb (definitely (isSafe rtree n)) then Some copyPath
               else
                 let posts := postimage rtree n in
                 cex ← findCounterexample fuel' rtree posts copyPath;
                 match cex with
                 | _ :: _ => Some cex
                 | [] => loop img'
                 end
         end) img
  end.

(** The forward walk of [isSpurious] over the nodes after the first. *)
Fixpoint mapForward (rtree : RT) (rtEnc : Enclosure) (counter : list NodeT)
         (currPoint : PointT) : Kleenean :=
  match counter with
  | [] => kbool false
  | nextCounter :: counter' =>
      let oNext := nodeValue rtree nextCounter in
      let mappedPoint := evaluate (dynamics rtree) currPoint in
      let containsMapped :=
        match oNext with
        | Some next => contains (getEnclosure next) mappedPoint
        | None => knot (contains rtEnc mappedPoint)
        end in
      if definitely (knot containsMapped) then kbool true
      else mapForward rtree rtEnc counter' mappedPoint
  end.

(** [isSpurious].  Dereferencing [beginCounter] of an empty path is
    undefined: [None]. *)
Definition isSpurious (rtree : RT) (counter image : list NodeT) (effort : Effort)
  : option Kleenean :=
  match counter with
  | [] => None
  | beginCounter :: counter' =>
      match nodeValue rtree beginCounter with
      | None =>
          let notCovers (nodeEnc initialEnc : Enclosure) :=
            box_differs (intersection initialEnc nodeEnc) nodeEnc in
          if existsb (λ n, possibly (relates rtree n (initialEnclosure rtree) notCovers))
                     image
          then Some (kbool false)
          else Some (kbool true)
      | Some beginCex =>
          let currPoint := centre (getEnclosure beginCex) in
          let contains2 n :=
            possibly (relates rtree n currPoint (λ enc pt, contains enc pt)) in
          if negb (existsb contains2 image) then Some (kbool true)
          else
            let rtEnc := getEnclosure (treeValue rtree (treeRoot rtree)) in
            Some (mapForward rtree rtEnc counter' currPoint)
      end
  end.

(** [findContaining]: the position in the range of the first node whose box
    contains [pt] according to [eval]; [None] is the end of the range. *)
Fixpoint findContaining (rtree : RT) (pt : PointT) (nodes : list NodeT)
         (eval : Kleenean → bool) : option nat :=
  match nodes with
  | [] => None
  | n :: nodes' =>
      let val := nodeValue rtree n in
      if match val with
         | None => false
         | Some v => eval (contains (getEnclosure v) pt)
         end
      then Some O
      else S <$> findContaining rtree pt nodes' eval
  end.

(** [std::set< NodeT, Compare >] as the list of its elements in iteration
    order. *)
Section NodeSet.
Variable comp : NodeT → NodeT → bool.

Fixpoint set_insert (x : NodeT) (s : list NodeT) : list NodeT :=
  match s with
  | [] => [x]
  | y :: s' =>
      if comp y x then y :: set_insert x s'
      else if comp x y then x :: y :: s'
      else y :: s'
  end.

Definition set_insert_range (xs : list NodeT) (s : list NodeT) : list NodeT :=
  foldl (λ s x, set_insert x s) s xs.

(** [find]: the position of the element equivalent to [x], if any. *)
Fixpoint set_find (x : NodeT) (s : list NodeT) : option nat :=
  match s with
  | [] => None
  | y :: s' =>
      if comp y x then S <$> set_find x s'
      else if comp x y then None
      else Some O
  end.
End NodeSet.

Section driver.
Variable initialSet : Enclosure.
Variable effort : Effort.
Variable refinement : IRefinement.
Variable locator : list NodeT → list NodeT.
Variable maxNodes : nat.

(** The body of the loop over the nodes the locator selects. *)
Definition refineNode (st : RT * list NodeT) (refine_ : NodeT)
  : RT * list NodeT :=
  let '(rtree, initialImage) := st in
  match nodeValue rtree refine_, graphValue rtree refine_ with
  | Some _, InsideGraphValue treeNodeRef =>
      let iRefined := set_find (NodeComparator rtree) refine_ initialImage in
      let rtree' := refine rtree refine_ refinement in
      match iRefined with
      | Some i =>
          let erased := delete i initialImage in
          let refinedInitials := imageFrom rtree' initialSet treeNodeRef in
          (rtree', set_insert_range (NodeComparator rtree') refinedInitials erased)
      | None => (rtree', initialImage)
      end
  | _, _ => st
  end.

(** The [while] loop of [cegar]; [fuel] bounds the number of iterations
    and [depth] the recursion of the search. *)
Fixpoint cegar_loop (fuel depth : nat) (rtree : RT) (initialImage : list NodeT)
  : option (Kleenean * list NodeT) :=
  match fuel with
  | O => None
  | S fuel' =>
      if bool_decide (treeSize rtree < maxNodes) then
        counterexample ← findCounterexample depth rtree initialImage [];
        match counterexample with
        | [] => Some (kbool true, [])
        | _ :: _ =>
            spurious ← isSpurious rtree counterexample initialImage effort;
            back ← last counterexample;
            if definitely (knot spurious)
               && definitely (knot (isSafe rtree back))
            then Some (kbool false, counterexample)
            else
              let '(rtree', initialImage') :=
                foldl refineNode (rtree, initialImage) (locator counterexample) in
              cegar_loop fuel' depth rtree' initialImage'
        end
      else Some (KIndeterminate, [])
  end.

Definition cegar (fuel depth : nat) (rtree : RT)
  : option (Kleenean * list NodeT) :=
  let img := image rtree initialSet in
  let initialImage := set_insert_range (NodeComparator rtree) img [] in
  cegar_loop fuel depth rtree initialImage.
End driver.
End defs.
End Cegar.

(** * The tree of refinementTree.hpp seen through the interface of cegar.hpp

    The refinement tree of refinementTree.hpp has no outside sink; a handle
    that is not live plays its part here.  This instance runs the driver on the embedded
    tree over the one-dimensional kernel. *)

Module Run.
Import Interval1D.

Definition encode (n : tree.NodeT) : nat :=
  foldl (λ acc (b : bool), 2 * acc + (if b then 1 else 0)) 1 n.

Definition State : Type := Rtree.RefinementTree * box.

Global Instance api : Cegar.RefinementTreeApi := {|
  Cegar.RT := State;
  Cegar.NodeT := graph.VertexT;
  Cegar.TreeNodeT := tree.NodeT;
  Cegar.InteriorTreeValue := tree.NodeT * Rtree.TreeValue;
  Cegar.IRefinement := Rtree.IRefinementStrategy;
  Cegar.id tv := encode tv.1;
  Cegar.getEnclosure tv := Rtree.getEnclosure tv.2;
  Cegar.graphValue st n :=
    match graph.value (Rtree.mMappings st.1) n with
    | Some tn => Cegar.InsideGraphValue tn
    | None => Cegar.OutsideGraphValue
    end;
  Cegar.treeValue st tn :=
    (tn, default Rtree.TreeValue_default (tree.value (Rtree.mRefinements st.1) tn));
  Cegar.treeRoot _ := tree.root;
  Cegar.treeSize st := tree.size (Rtree.mRefinements st.1);
  Cegar.equal st n1 n2 :=
    match Rtree.nodesEqual st.1 n1 n2 with
    | Some areEqual => definitely areEqual
    | None => false
    end;
  Cegar.isSafe st n :=
    match Rtree.nodeValue st.1 n with
    | Some tv => Rtree.isSafe tv
    | None => kbool false
    end;
  Cegar.postimage st n := Rtree.postimage st.1 n;
  Cegar.relates X st n x p :=
    match Rtree.nodeValue st.1 n with
    | Some tv => p (Rtree.getEnclosure tv) x
    | None => kbool false
    end;
  Cegar.initialEnclosure st := st.2;
  Cegar.dynamics st := Rtree.mDynamics st.1;
  Cegar.image st from := default [] (Rtree.image st.1 from);
  Cegar.imageFrom st from tn := default [] (Rtree.imageRecursive st.1 from tn);
  Cegar.refine st n r := (default st.1 (Rtree.refine st.1 n r), st.2)
|}.

(** All nodes of the path but the last. *)
Definition allButLast (path : list graph.VertexT) : list graph.VertexT :=
  take (length path - 1) path.

Definition start (initial cs : box) (dyn : Z) : option State :=
  rt ← Rtree.new initial cs dyn 1; Some (rt, initial).

Definition run (initial cs : box) (dyn : Z) (maxNodes : nat)
  : option (Kleenean * list graph.VertexT) :=
  st ← start initial cs dyn;
  Cegar.cegar initial 1 bisect allButLast maxNodes 8 8 st.

(** The tree over the root box [0, 4] with safe set [0, 1] and the identity
    dynamics, as the constructor builds it, and after bisecting the root. *)
Definition rootTree : Rtree.RefinementTree :=
  Rtree.MkRefinementTree (0, 1)%Z 0%Z 1
    (tree.Leaf (Rtree.MkTreeValue (0, 4)%Z KTrue))
    (graph.MkGraph {[ 0 := [] ]} [(0, 0)]).

Definition splitTree : Rtree.RefinementTree :=
  Rtree.MkRefinementTree (0, 1)%Z 0%Z 1
    (tree.Branch (Rtree.MkTreeValue (0, 4)%Z KTrue)
       (tree.Leaf (Rtree.MkTreeValue (0, 2)%Z KTrue))
       (tree.Leaf (Rtree.MkTreeValue (2, 4)%Z KFalse)))
    (graph.MkGraph (<[ 2 := [true] ]> {[ 1 := [false] ]})
                   [(1, 1); (2, 1); (1, 2); (2, 2)]).

(** The two trees with the initial set [0, 1]. *)
Definition rootState : State := (rootTree, (0, 1)%Z).
Definition splitState : State := (splitTree, (0, 1)%Z).

Definition lowerValue : Rtree.TreeValue := Rtree.MkTreeValue (0, 2)%Z KTrue.
Definition rootValue : Rtree.TreeValue := Rtree.MkTreeValue (0, 4)%Z KTrue.
Definition upperValue : Rtree.TreeValue := Rtree.MkTreeValue (2, 4)%Z KFalse.

(** The tree over the root box [0, 8] with safe set [4, 5] and the dynamics
    [x ↦ x - 7], after bisecting the root: the only edge leads from the
    safe leaf 2 = [4, 8] to the unsafe leaf 1 = [0, 4]. *)
Definition shiftTree : Rtree.RefinementTree :=
  Rtree.MkRefinementTree (4, 5)%Z (-7)%Z 1
    (tree.Branch (Rtree.MkTreeValue (0, 8)%Z KTrue)
       (tree.Leaf (Rtree.MkTreeValue (0, 4)%Z KFalse))
       (tree.Leaf (Rtree.MkTreeValue (4, 8)%Z KTrue)))
    (graph.MkGraph (<[ 2 := [true] ]> {[ 1 := [false] ]}) [(2, 1)]).

(** A tree in which two leaves have the same box.  Over the root box
    [0, 100] with safe set [0, 10] and the dynamics [x ↦ x + 5], four
    refinements whose strategies return the boxes written here give the
    leaves 1 = [0, 10], 5 = [12, 20], 6 = [40, 50], 7 = [0, 10] and
    8 = [0, 3]; leaf 1 maps to itself and to 7, and 7 maps to the unsafe
    leaf 5. *)
Definition twinTree : Rtree.RefinementTree :=
  Rtree.MkRefinementTree (0, 10)%Z 5%Z 1
    (tree.Branch (Rtree.MkTreeValue (0, 100)%Z KTrue)
       (tree.Leaf (Rtree.MkTreeValue (0, 10)%Z KTrue))
       (tree.Branch (Rtree.MkTreeValue (12, 100)%Z KFalse)
          (tree.Branch (Rtree.MkTreeValue (40, 50)%Z KFalse)
             (tree.Leaf (Rtree.MkTreeValue (12, 20)%Z KFalse))
             (tree.Leaf (Rtree.MkTreeValue (40, 50)%Z KFalse)))
          (tree.Branch (Rtree.MkTreeValue (12, 45)%Z KFalse)
             (tree.Leaf (Rtree.MkTreeValue (0, 10)%Z KTrue))
             (tree.Leaf (Rtree.MkTreeValue (0, 3)%Z KTrue)))))
    (graph.MkGraph
       (<[ 8 := [true; true; true] ]>
          (<[ 7 := [true; true; false] ]>
             (<[ 6 := [true; false; true] ]>
                (<[ 5 := [true; false; false] ]> {[ 1 := [false] ]}))))
       [(1, 1); (5, 5); (6, 6); (1, 7); (7, 7); (8, 7); (7, 5)]).

End Run.

(** * Vocabulary of the statements *)

Section vocabulary.
Context `{Num : Numeric}.

(** What the observers of the tree read: everything but the edge list. *)
Definition base (rt : Rtree.RefinementTree) :=
  (Rtree.mConstraints rt, Rtree.mDynamics rt, Rtree.mEffort rt,
   Rtree.mRefinements rt, graph.vertexMap (Rtree.mMappings rt)).

Definition edgesOf (rt : Rtree.RefinementTree) : list (graph.VertexT * graph.VertexT) :=
  graph.edgeList (Rtree.mMappings rt).

(** [possibly( isReachable( a, b ) )] holds. *)
Definition possiblyReachable (rt : Rtree.RefinementTree) (a b : graph.VertexT) : Prop :=
  ∃ k, Rtree.isReachable rt a b = Some k ∧ possibly k = true.

(** [p'] is among [leaves( p )]. *)
Definition descendantLeaf (rt : Rtree.RefinementTree) (p p' : graph.VertexT) : Prop :=
  ∃ ls, Rtree.leaves rt p = Some ls ∧ p' ∈ ls.

(** [v] is a live vertex that stands for a leaf of the tree. *)
Definition leafVertex (rt : Rtree.RefinementTree) (v : graph.VertexT) : Prop :=
  ∃ treev x, graph.value (Rtree.mMappings rt) v = Some treev ∧
             tree.subtree (Rtree.mRefinements rt) treev = Some (tree.Leaf x).

(** The edges step 5 of [refine] adds for a new child [c]: from the
    descendant leaves of the members of [pres], and to those of [posts]. *)
Definition addsPre (rt : Rtree.RefinementTree) (pres : list graph.VertexT)
           (c : graph.VertexT) (e : graph.VertexT * graph.VertexT) : Prop :=
  ∃ pre p', pre ∈ pres ∧ descendantLeaf rt pre p' ∧
            e = (p', c) ∧ possiblyReachable rt p' c.

Definition addsPost (rt : Rtree.RefinementTree) (posts : list graph.VertexT)
           (c : graph.VertexT) (e : graph.VertexT * graph.VertexT) : Prop :=
  ∃ post s', post ∈ posts ∧ descendantLeaf rt post s' ∧
             e = (c, s') ∧ possiblyReachable rt c s'.

(** The leaves of the tree and the vertices of the graph correspond one to
    one, and every edge joins two live vertices. *)
Definition consistent (rt : Rtree.RefinementTree) : Prop :=
  (∀ v treev, graph.value (Rtree.mMappings rt) v = Some treev →
              ∃ x, tree.subtree (Rtree.mRefinements rt) treev = Some (tree.Leaf x)) ∧
  (∀ treev x, tree.subtree (Rtree.mRefinements rt) treev = Some (tree.Leaf x) →
              ∃ v, graph.value (Rtree.mMappings rt) v = Some treev) ∧
  (∀ v w treev, graph.value (Rtree.mMappings rt) v = Some treev →
                graph.value (Rtree.mMappings rt) w = Some treev → v = w) ∧
  (∀ a b, (a, b) ∈ edgesOf rt →
          is_Some (graph.value (Rtree.mMappings rt) a) ∧
          is_Some (graph.value (Rtree.mMappings rt) b)).

(** Every edge joins a source whose image possibly meets the target. *)
Definition edgeSound (rt : Rtree.RefinementTree) : Prop :=
  ∀ a b, (a, b) ∈ edgesOf rt → possiblyReachable rt a b.

(** No ancestor of the leaf at position [p], nor the leaf, is definitely
    disjoint from [from]: the descent of [imageRecursive] reaches it. *)
Definition notPruned (rt : Rtree.RefinementTree) (from : Enclosure)
           (p : tree.NodeT) : Prop :=
  ∀ q s, q `prefix_of` p →
         tree.subtree (Rtree.mRefinements rt) q = Some s →
         definitely (is_empty (intersection from (Rtree.getEnclosure (tree.label s))))
         = false.

(** What the search of refinementTree.hpp guarantees of the nodes [ext] it
    appends to [path]: all but the last are definitely safe, pass the loop
    test against the path before them and are followed by one of their
    successors; the last is not definitely safe. *)
Fixpoint searchExt (rt : Rtree.RefinementTree) (path ext : list graph.VertexT) : Prop :=
  match ext with
  | [] => False
  | n :: ext' =>
      ∃ tv, Rtree.nodeValue rt n = Some tv ∧
            match ext' with
            | [] => definitely (Rtree.isSafe tv) = false
            | m :: _ =>
                definitely (Rtree.isSafe tv) = true ∧
                RtreeCegar.findLoop rt n path = Some false ∧
                m ∈ Rtree.postimage rt n ∧
                searchExt rt (path ++ [n]) ext'
            end
  end.
End vocabulary.

Section cegar_vocabulary.
Context `{Api : Cegar.RefinementTreeApi}.
Import Cegar.

(** The representative point after [k] applications of the dynamics. *)
Definition mapped (rtree : RT) (k : nat) (p : PointT) : PointT :=
  Nat.iter k (evaluate (dynamics rtree)) p.

(** The point [p] lies in some node of [image]: [contains2] of [isSpurious]
    holds for one of them. *)
Definition inSomeLeaf (rtree : RT) (image : list NodeT) (p : PointT) : Prop :=
  ∃ n, n ∈ image ∧ possibly (relates rtree n p (λ enc pt, contains enc pt)) = true.

(** The point [q] has left the path at node [n]: it is definitely not in the
    box of a concrete node, or definitely inside the root box when [n] is
    the outside sink. *)
Definition lostAt (rtree : RT) (n : NodeT) (q : PointT) : bool :=
  match nodeValue rtree n with
  | Some next => definitely (knot (contains (getEnclosure next) q))
  | None => definitely (contains (getEnclosure (treeValue rtree (treeRoot rtree))) q)
  end.

(** Consecutive nodes of [p] are joined by graph edges. *)
Definition isPath (rtree : RT) (p : list NodeT) : Prop :=
  ∀ i a b, p !! i = Some a → p !! S i = Some b → b ∈ postimage rtree a.

(** No node of [p] compares equal to an earlier one; [equal] is called, as
    in the search, with the later node first. *)
Definition loopFree (rtree : RT) (p : list NodeT) : Prop :=
  ∀ i j a b, i < j → p !! i = Some a → p !! j = Some b → equal rtree b a = false.



(** What the search guarantees of the nodes [ext] it appends to [path]:
    each is new to the path before it, all but the last are definitely safe
    and followed by one of their successors, and the last is not definitely
    safe. *)
Fixpoint validExt (rtree : RT) (path ext : list NodeT) : Prop :=
  match ext with
  | [] => False
  | n :: ext' =>
      existsb (equal rtree n) path = false ∧
      match ext' with
      | [] => definitely (isSafe rtree n) = false
      | m :: _ =>
          definitely (isSafe rtree n) = true ∧
          m ∈ postimage rtree n ∧
          validExt rtree (path ++ [n]) ext'
      end
  end.

(** The test of the driver's second [if]: the counterexample is definitely
    not spurious and its last node is definitely not safe. *)
Definition provedUnsafe (rtree : RT) (effort : Effort) (initialImage cex : list NodeT)
  : Prop :=
  ∃ spurious back,
    isSpurious rtree cex initialImage effort = Some spurious ∧
    last cex = Some back ∧
    definitely (knot spurious) = true ∧
    definitely (knot (isSafe rtree back)) = true.

(** [refinesIn k st st']: [k] iterations of the driver's loop, none of which
    returns, lead from the tree and initial image [st] to [st']. *)
Inductive refinesIn (initialSet : Enclosure) (effort : Effort)
          (refinement : IRefinement) (locator : list NodeT → list NodeT)
          (maxNodes depth : nat)
  : nat → RT * list NodeT → RT * list NodeT → Prop :=
| refines_O st :
    refinesIn initialSet effort refinement locator maxNodes depth 0 st st
| refines_S k rtree initialImage cex st' :
    treeSize rtree < maxNodes →
    findCounterexample depth rtree initialImage [] = Some cex →
    cex ≠ [] →
    ¬ provedUnsafe rtree effort initialImage cex →
    refinesIn initialSet effort refinement locator maxNodes depth k
              (foldl (refineNode initialSet refinement) (rtree, initialImage)
                     (locator cex)) st' →
    refinesIn initialSet effort refinement locator maxNodes depth (S k)
              (rtree, initialImage) st'.

(** How an iteration of the driver's loop that returns ends: with the budget
    used up, with the empty path, or with a counterexample that passes the
    test. *)
Definition returnsWith (effort : Effort) (maxNodes depth : nat) (rtree : RT)
           (initialImage : list NodeT) (res : Kleenean * list NodeT) : Prop :=
  (¬ treeSize rtree < maxNodes ∧ res = (KIndeterminate, [])) ∨
  (treeSize rtree < maxNodes ∧
   findCounterexample depth rtree initialImage [] = Some [] ∧
   res = (KTrue, [])) ∨
  (treeSize rtree < maxNodes ∧
   ∃ cex, findCounterexample depth rtree initialImage [] = Some cex ∧
          cex ≠ [] ∧
          provedUnsafe rtree effort initialImage cex ∧
          res = (KFalse, cex)).
End cegar_vocabulary.

(** * Properties of the fixed-branch tree and of the digraph *)

Section tree_facts.
Context {T : Type}.
Implicit Types (t : tree.LinkedFixedBranchTree T) (n : tree.NodeT).

Lemma subtree_app t n m :
  tree.subtree t (n ++ m) = (tree.subtree t n ≫= λ s, tree.subtree s m).
Proof.
  revert t; induction n as [|b n IH]; intros t; [reflexivity|].
  destruct t; [reflexivity|]. apply IH.
Qed.

(** After [expand], the node is an interior node with the old label and the
    two new leaves below it. *)
Lemma expand_subtree t n vs t' :
  tree.expand t n vs = Some t' →
  ∃ x, tree.subtree t n = Some (tree.Leaf x) ∧
       tree.subtree t' n = Some (tree.Branch x (tree.Leaf vs.1) (tree.Leaf vs.2)).
Proof.
  revert t t'; induction n as [|b n IH]; intros t t' Hex.
  - destruct t; simpl in Hex; simplify_eq. eauto.
  - destruct t as [x|x c0 c1]; simpl in Hex. { destruct b; done. }
    destruct b; simpl.
    + destruct (tree.expand c1 n vs) as [c1'|] eqn:E; simplify_eq/=. eauto.
    + destruct (tree.expand c0 n vs) as [c0'|] eqn:E; simplify_eq/=. eauto.
Qed.

Lemma expand_children t n vs t' :
  tree.expand t n vs = Some t' →
  tree.children t' n = [n ++ [false]; n ++ [true]].
Proof.
  intros (x & _ & Hs)%expand_subtree. unfold tree.children. by rewrite Hs.
Qed.

Lemma expand_child_values t n vs t' :
  tree.expand t n vs = Some t' →
  tree.value t' (n ++ [false]) = Some vs.1 ∧
  tree.value t' (n ++ [true]) = Some vs.2.
Proof.
  intros (x & _ & Hs)%expand_subtree. unfold tree.value.
  rewrite !subtree_app, Hs. done.
Qed.

Lemma expand_size t n vs t' :
  tree.expand t n vs = Some t' → tree.size t' = tree.size t + 2.
Proof.
  revert t t'; induction n as [|b n IH]; intros t t' Hex.
  - destruct t; simpl in Hex; simplify_eq. simpl. lia.
  - destruct t as [x|x c0 c1]; simpl in Hex. { destruct b; done. }
    destruct b.
    + destruct (tree.expand c1 n vs) as [c1'|] eqn:E; simplify_eq/=.
      apply IH in E. lia.
    + destruct (tree.expand c0 n vs) as [c0'|] eqn:E; simplify_eq/=.
      apply IH in E. lia.
Qed.
End tree_facts.

Section graph_facts.
Context {V : Type} `{EqDecision V}.
Implicit Types (g : graph.AdjacencyDiGraph V) (v : graph.VertexT).

Lemma findVertex_value g x v :
  graph.findVertex g x = Some v → graph.value g v = Some x.
Proof.
  unfold graph.findVertex, graph.value. intros Hf.
  apply fmap_Some in Hf as ([i [k y]] & Hf & ->).
  apply list_find_Some in Hf as (Hl & Hy & _). simpl in *. subst y.
  apply elem_of_map_to_list. eapply list_elem_of_lookup_2, Hl.
Qed.

Lemma addVertex_fresh g x :
  graph.value g (graph.addVertex g x).2 = None.
Proof.
  unfold graph.value, graph.addVertex. simpl.
  apply not_elem_of_dom, is_fresh.
Qed.

Lemma elem_of_addEdge g s t e :
  e ∈ graph.edgeList (graph.addEdge g s t) ↔ e ∈ graph.edgeList g ∨ e = (s, t).
Proof.
  unfold graph.addEdge. case_decide as Hin; simpl.
  - split; [by left|]. intros [?| ->]; done.
  - rewrite elem_of_app, list_elem_of_singleton. done.
Qed.

Lemma vertexMap_addEdge g s t :
  graph.vertexMap (graph.addEdge g s t) = graph.vertexMap g.
Proof. unfold graph.addEdge. by case_decide. Qed.

Lemma elem_of_removeVertex g v a b :
  (a, b) ∈ graph.edgeList (graph.removeVertex g v) ↔
  a ≠ v ∧ b ≠ v ∧ (a, b) ∈ graph.edgeList g.
Proof.
  unfold graph.removeVertex. simpl. rewrite list_elem_of_filter. simpl. tauto.
Qed.
End graph_facts.

(** * Properties of the refinement tree *)

Section rtree_facts.
Context `{Num : Numeric}.
Implicit Types (rt s : Rtree.RefinementTree) (v : graph.VertexT).

Lemma base_withMappings rt g :
  graph.vertexMap g = graph.vertexMap (Rtree.mMappings rt) →
  base (Rtree.withMappings rt g) = base rt.
Proof. unfold base. simpl. by intros ->. Qed.

Lemma nodeValue_base rt s v : base rt = base s → Rtree.nodeValue rt v = Rtree.nodeValue s v.
Proof.
  unfold base, Rtree.nodeValue, graph.value. intros [= _ _ _ -> ->]. done.
Qed.

Lemma isReachable_base rt s a b :
  base rt = base s → Rtree.isReachable rt a b = Rtree.isReachable s a b.
Proof.
  intros Hb. unfold Rtree.isReachable.
  rewrite !(nodeValue_base rt s) by done.
  unfold base in Hb. injection Hb as _ -> _ _ _. done.
Qed.

Lemma leaves_base rt s v : base rt = base s → Rtree.leaves rt v = Rtree.leaves s v.
Proof.
  unfold base, Rtree.leaves, Rtree.leaves_tree, graph.value. intros [= _ _ _ -> Hv].
  rewrite Hv. destruct (graph.vertexMap (Rtree.mMappings s) !! v) as [treev|]; [|done].
  simpl. destruct (tree.subtree _ treev) as [sub|]; [|done]. simpl.
  clear -Hv. revert treev. induction sub as [x|x c0 IH0 c1 IH1]; intros treev; simpl.
  - unfold graph.findVertex. by rewrite Hv.
  - by rewrite IH0, IH1.
Qed.

Lemma possiblyReachable_base rt s a b :
  base rt = base s → possiblyReachable rt a b ↔ possiblyReachable s a b.
Proof. intros Hb. unfold possiblyReachable. by rewrite (isReachable_base rt s). Qed.

Lemma descendantLeaf_base rt s p p' :
  base rt = base s → descendantLeaf rt p p' ↔ descendantLeaf s p p'.
Proof. intros Hb. unfold descendantLeaf. by rewrite (leaves_base rt s). Qed.

(** A loop whose body only adds edges: the base is kept and the edges added
    are those the body adds for some element. *)
Lemma forEach_edges {A} (body : Rtree.RefinementTree → A → option Rtree.RefinementTree)
      (Q : Rtree.RefinementTree → A → graph.VertexT * graph.VertexT → Prop) :
  (∀ s x s', body s x = Some s' →
             base s' = base s ∧ ∀ e, e ∈ edgesOf s' ↔ e ∈ edgesOf s ∨ Q s x e) →
  (∀ s s' x e, base s = base s' → Q s x e ↔ Q s' x e) →
  ∀ l s s', forEach body l s = Some s' →
            base s' = base s ∧
            ∀ e, e ∈ edgesOf s' ↔ e ∈ edgesOf s ∨ ∃ x, x ∈ l ∧ Q s x e.
Proof.
  intros Hbody HQ l. induction l as [|x l IH]; intros s s' Hrun; simpl in Hrun.
  - simplify_eq. split; [done|]. intros e. split; [by left|].
    intros [?|(x & Hx & _)]; [done|]. by apply elem_of_nil in Hx.
  - destruct (body s x) as [s1|] eqn:Hb; simplify_eq/=.
    apply Hbody in Hb as [Hb1 He1]. apply IH in Hrun as [Hb2 He2].
    split; [congruence|]. intros e. rewrite He2, He1. split.
    + intros [[?|?]|(y & Hy & HQy)]; [by left|right..].
      * exists x. split; [left|done].
      * exists y. split; [by right|]. by apply (HQ s s1).
    + intros [?|(y & Hy & HQy)]; [by left; left|].
      apply elem_of_cons in Hy as [->|Hy]; [by left; right|].
      right. exists y. split; [done|]. by apply (HQ s s1).
Qed.

Lemma linkIfReachable_edges s src trg s' :
  Rtree.linkIfReachable s src trg = Some s' →
  base s' = base s ∧
  ∀ e, e ∈ edgesOf s' ↔ e ∈ edgesOf s ∨ (e = (src, trg) ∧ possiblyReachable s src trg).
Proof.
  unfold Rtree.linkIfReachable, possiblyReachable. intros Hl.
  destruct (Rtree.isReachable s src trg) as [k|] eqn:Hk; simplify_eq/=.
  destruct (possibly k) eqn:Hp.
  - split; [apply base_withMappings, vertexMap_addEdge|].
    intros e. unfold edgesOf. simpl. rewrite elem_of_addEdge. split.
    + intros [?|?]; [by left|right]. split; [done|]. by exists k.
    + intros [?|[? _]]; [by left|by right].
  - split; [done|]. intros e. split; [by left|].
    intros [?|(_ & k' & [= <-] & Hp')]; [done|congruence].
Qed.

Lemma link_pres_edges (c : graph.VertexT) (pres : list graph.VertexT) s s' :
  forEach (λ s pre,
             ls ← Rtree.leaves s pre;
             forEach (λ s preLeaf, Rtree.linkIfReachable s preLeaf c) ls s)
          pres s = Some s' →
  base s' = base s ∧ ∀ e, e ∈ edgesOf s' ↔ e ∈ edgesOf s ∨ addsPre s pres c e.
Proof.
  intros Hrun.
  eapply (forEach_edges _ (λ s pre e, ∃ p', descendantLeaf s pre p' ∧
                              e = (p', c) ∧ possiblyReachable s p' c)) in Hrun.
  - destruct Hrun as [Hb He]. split; [done|]. intros e. rewrite He.
    unfold addsPre. split; (intros [?|Hadd]; [by left|right]).
    + destruct Hadd as (pre & Hpre & p' & Hadd). by exists pre, p'.
    + destruct Hadd as (pre & p' & Hpre & Hadd). exists pre. split; [done|]. by exists p'.
  - clear. intros s pre s' Hbody.
    destruct (Rtree.leaves s pre) as [ls|] eqn:Hls; simplify_eq/=.
    eapply (forEach_edges _ (λ s p' e, e = (p', c) ∧ possiblyReachable s p' c))
      in Hbody.
    + destruct Hbody as [Hb He]. split; [done|]. intros e. rewrite He.
      unfold descendantLeaf. rewrite Hls. split; (intros [?|Hadd]; [by left|right]).
      * destruct Hadd as (p' & Hp' & Hadd). exists p'. split; [by exists ls|done].
      * destruct Hadd as (p' & (ls' & [= <-] & Hp') & Hadd). by exists p'.
    + intros ???. apply linkIfReachable_edges.
    + intros ???? Hb. by rewrite (possiblyReachable_base _ _ _ _ Hb).
  - intros ???? Hb. setoid_rewrite (possiblyReachable_base _ _ _ _ Hb).
    by setoid_rewrite (descendantLeaf_base _ _ _ _ Hb).
Qed.

Lemma link_posts_edges (c : graph.VertexT) (posts : list graph.VertexT) s s' :
  forEach (λ s post,
             ls ← Rtree.leaves s post;
             forEach (λ s postLeaf, Rtree.linkIfReachable s c postLeaf) ls s)
          posts s = Some s' →
  base s' = base s ∧ ∀ e, e ∈ edgesOf s' ↔ e ∈ edgesOf s ∨ addsPost s posts c e.
Proof.
  intros Hrun.
  eapply (forEach_edges _ (λ s post e, ∃ p', descendantLeaf s post p' ∧
                              e = (c, p') ∧ possiblyReachable s c p')) in Hrun.
  - destruct Hrun as [Hb He]. split; [done|]. intros e. rewrite He.
    unfold addsPost. split; (intros [?|Hadd]; [by left|right]).
    + destruct Hadd as (post & Hpost & p' & Hadd). by exists post, p'.
    + destruct Hadd as (post & p' & Hpost & Hadd). exists post. split; [done|]. by exists p'.
  - clear. intros s post s' Hbody.
    destruct (Rtree.leaves s post) as [ls|] eqn:Hls; simplify_eq/=.
    eapply (forEach_edges _ (λ s p' e, e = (c, p') ∧ possiblyReachable s c p'))
      in Hbody.
    + destruct Hbody as [Hb He]. split; [done|]. intros e. rewrite He.
      unfold descendantLeaf. rewrite Hls. split; (intros [?|Hadd]; [by left|right]).
      * destruct Hadd as (p' & Hp' & Hadd). exists p'. split; [by exists ls|done].
      * destruct Hadd as (p' & (ls' & [= <-] & Hp') & Hadd). by exists p'.
    + intros ???. apply linkIfReachable_edges.
    + intros ???? Hb. by rewrite (possiblyReachable_base _ _ _ _ Hb).
  - intros ???? Hb. setoid_rewrite (possiblyReachable_base _ _ _ _ Hb).
    by setoid_rewrite (descendantLeaf_base _ _ _ _ Hb).
Qed.

Lemma addsPre_base rt s pres c e :
  base rt = base s → addsPre rt pres c e ↔ addsPre s pres c e.
Proof.
  intros Hb. unfold addsPre. setoid_rewrite (possiblyReachable_base _ _ _ _ Hb).
  by setoid_rewrite (descendantLeaf_base _ _ _ _ Hb).
Qed.

Lemma addsPost_base rt s posts c e :
  base rt = base s → addsPost rt posts c e ↔ addsPost s posts c e.
Proof.
  intros Hb. unfold addsPost. setoid_rewrite (possiblyReachable_base _ _ _ _ Hb).
  by setoid_rewrite (descendantLeaf_base _ _ _ _ Hb).
Qed.

(** The three nested loops of [refine]. *)
Lemma link_children_edges (pres posts refinedNodes : list graph.VertexT) s s' :
  forEach (λ s refined,
     s1 ← forEach (λ s pre,
            ls ← Rtree.leaves s pre;
            forEach (λ s preLeaf, Rtree.linkIfReachable s preLeaf refined) ls s)
          pres s;
     forEach (λ s post,
            ls ← Rtree.leaves s post;
            forEach (λ s postLeaf, Rtree.linkIfReachable s refined postLeaf) ls s)
          posts s1)
    refinedNodes s = Some s' →
  base s' = base s ∧
  ∀ e, e ∈ edgesOf s' ↔
       e ∈ edgesOf s ∨
       ∃ c, c ∈ refinedNodes ∧ (addsPre s pres c e ∨ addsPost s posts c e).
Proof.
  intros Hrun.
  eapply (forEach_edges _ (λ s c e, addsPre s pres c e ∨ addsPost s posts c e))
    in Hrun; [done|..].
  - clear. intros s c s' Hbody.
    destruct (forEach _ pres s) as [s1|] eqn:Hpre; simplify_eq/=.
    apply link_pres_edges in Hpre as [Hb1 He1].
    apply link_posts_edges in Hbody as [Hb2 He2].
    split; [congruence|]. intros e.
    rewrite He2, He1, (addsPost_base s1 s) by done. tauto.
  - intros ???? Hb. by rewrite (addsPre_base _ _ _ _ _ Hb), (addsPost_base _ _ _ _ _ Hb).
Qed.
End rtree_facts.

Section refine_facts.
Context `{Num : Numeric}.
Implicit Types (rt s : Rtree.RefinementTree) (v : graph.VertexT).

(** [refine] taken apart: the expansion, the two new vertices, the loops
    and the removal of the refined vertex. *)
Lemma refine_unfold rt v r rt' :
  Rtree.refine rt v r = Some rt' →
  ∃ treev tv tvals t' rt3,
    graph.value (Rtree.mMappings rt) v = Some treev ∧
    tree.value (Rtree.mRefinements rt) treev = Some tv ∧
    Rtree.transform_tvals rt (r (Rtree.getEnclosure tv)) = Some tvals ∧
    tree.expand (Rtree.mRefinements rt) treev tvals = Some t' ∧
    let vm := graph.vertexMap (Rtree.mMappings rt) in
    let c0 := fresh (dom vm) in
    let vm0 := <[c0 := treev ++ [false]]> vm in
    let c1 := fresh (dom vm0) in
    let g2 := graph.MkGraph (<[c1 := treev ++ [true]]> vm0) (edgesOf rt) in
    let mid := Rtree.withMappings (Rtree.withRefinements rt t') g2 in
    forEach (λ s refined,
       s1 ← forEach (λ s pre,
              ls ← Rtree.leaves s pre;
              forEach (λ s preLeaf, Rtree.linkIfReachable s preLeaf refined) ls s)
            (Rtree.preimage mid v ++ [v]) s;
       forEach (λ s post,
              ls ← Rtree.leaves s post;
              forEach (λ s postLeaf, Rtree.linkIfReachable s refined postLeaf) ls s)
            (Rtree.postimage mid v ++ [v]) s1)
      [c0; c1] mid = Some rt3 ∧
    rt' = Rtree.withMappings rt3 (graph.removeVertex (Rtree.mMappings rt3) v).
Proof.
  unfold Rtree.refine. intros Href.
  destruct (graph.value (Rtree.mMappings rt) v) as [treev|] eqn:Hv; [|done].
  cbn [mbind option_bind] in Href.
  destruct (tree.value (Rtree.mRefinements rt) treev) as [tv|] eqn:Htv; [|done].
  cbn [mbind option_bind] in Href.
  destruct (Rtree.transform_tvals rt _) as [tvals|] eqn:Htvals; [|done].
  cbn [mbind option_bind] in Href.
  destruct (tree.expand (Rtree.mRefinements rt) treev tvals) as [t'|] eqn:Hex; [|done].
  cbn [mbind option_bind] in Href.
  cbn [Rtree.mRefinements Rtree.withRefinements] in Href.
  rewrite (expand_children _ _ _ _ Hex) in Href.
  unfold Rtree.addChildVertices in Href. cbn [foldl] in Href.
  unfold graph.addVertex in Href. cbn [fst snd app] in Href.
  cbn [Rtree.mMappings Rtree.withRefinements graph.vertexMap graph.edgeList] in Href.
  match type of Href with
  | (match ?x with _ => _ end) = _ => destruct x as [rt3|] eqn:Hloop; [|done]
  | (?x ≫= _) = _ => destruct x as [rt3|] eqn:Hloop; [|done]
  end.
  cbn [mbind option_bind] in Href. injection Href as <-.
  exists treev, tv, tvals, t', rt3. repeat (split; [done|]). done.
Qed.
End refine_facts.

Section refine_returns.
Context `{Num : Numeric}.
Implicit Types (rt s : Rtree.RefinementTree) (v : graph.VertexT).

Lemma expand_total {T} (t : tree.LinkedFixedBranchTree T) n x vs :
  tree.subtree t n = Some (tree.Leaf x) → is_Some (tree.expand t n vs).
Proof.
  revert t. induction n as [|b n IH]; intros t Hs.
  - simpl in Hs. injection Hs as ->. done.
  - destruct t as [y|y c0 c1]; [done|]. simpl in Hs.
    destruct b; simpl; destruct (IH _ Hs) as [c' ->]; done.
Qed.

(** Expanding a leaf leaves every other leaf where it is. *)
Lemma expand_other_leaf {T} (t : tree.LinkedFixedBranchTree T) n vs t' m y :
  tree.expand t n vs = Some t' →
  tree.subtree t m = Some (tree.Leaf y) → m ≠ n →
  tree.subtree t' m = Some (tree.Leaf y).
Proof.
  revert t t' m. induction n as [|b n IH]; intros t t' m Hex Hm Hne.
  - destruct t; simpl in Hex; simplify_eq. destruct m; [done|]. done.
  - destruct t as [x|x c0 c1]; simpl in Hex; [by destruct b|].
    destruct m as [|b' m]; [done|]. simpl in Hm.
    destruct b.
    + destruct (tree.expand c1 n vs) as [c1'|] eqn:E; simplify_eq/=.
      destruct b'; [|done]. eapply IH; [done..|]. congruence.
    + destruct (tree.expand c0 n vs) as [c0'|] eqn:E; simplify_eq/=.
      destruct b'; [done|]. eapply IH; [done..|]. congruence.
Qed.

Lemma findVertex_is_Some {V} `{EqDecision V} (g : graph.AdjacencyDiGraph V) k x :
  graph.value g k = Some x → is_Some (graph.findVertex g x).
Proof.
  unfold graph.value, graph.findVertex. intros Hk.
  apply fmap_is_Some. apply elem_of_map_to_list in Hk.
  destruct (list_find_elem_of (λ kv, kv.2 = x) _ (k, x) Hk eq_refl) as [r ->]. done.
Qed.

Lemma leaves_sub_total (g : graph.AdjacencyDiGraph tree.NodeT) sub to :
  (∀ q x, tree.subtree sub q = Some (tree.Leaf x) →
          is_Some (graph.findVertex g (to ++ q))) →
  is_Some (Rtree.leaves_sub g sub to).
Proof.
  revert to. induction sub as [x|x c0 IH0 c1 IH1]; intros to Hall; simpl.
  - destruct (Hall [] x eq_refl) as [iv Hiv]. rewrite app_nil_r in Hiv.
    by rewrite Hiv.
  - destruct (IH0 (to ++ [false])) as [rls0 ->].
    { intros q y Hq. rewrite <- app_assoc. by apply (Hall (false :: q) y). }
    destruct (IH1 (to ++ [true])) as [rls1 ->].
    { intros q y Hq. rewrite <- app_assoc. by apply (Hall (true :: q) y). }
    done.
Qed.

Lemma leaves_sub_values (g : graph.AdjacencyDiGraph tree.NodeT) sub to ls :
  Rtree.leaves_sub g sub to = Some ls →
  ∀ v, v ∈ ls → ∃ q x, graph.value g v = Some (to ++ q) ∧
                       tree.subtree sub q = Some (tree.Leaf x).
Proof.
  revert to ls. induction sub as [x|x c0 IH0 c1 IH1]; intros to ls; simpl.
  - destruct (graph.findVertex g to) as [iv|] eqn:Hf; [|done].
    intros [= <-] v ->%list_elem_of_singleton.
    exists [], x. rewrite app_nil_r. split; [by apply findVertex_value|done].
  - destruct (Rtree.leaves_sub g c0 _) as [rls0|] eqn:H0; [|done].
    destruct (Rtree.leaves_sub g c1 _) as [rls1|] eqn:H1; [|done].
    intros [= <-] v [Hv|Hv]%elem_of_app.
    + destruct (IH0 _ _ H0 v Hv) as (q & y & Hval & Hsub).
      exists (false :: q), y. by rewrite <- app_assoc in Hval.
    + destruct (IH1 _ _ H1 v Hv) as (q & y & Hval & Hsub).
      exists (true :: q), y. by rewrite <- app_assoc in Hval.
Qed.

(** The leaves below a vertex are leaf vertices. *)
Lemma leaves_leafVertex rt v ls :
  Rtree.leaves rt v = Some ls → ∀ p, p ∈ ls → leafVertex rt p.
Proof.
  unfold Rtree.leaves, Rtree.leaves_tree. intros Hl p Hp.
  destruct (graph.value (Rtree.mMappings rt) v) as [treev|]; [|done]. simpl in Hl.
  destruct (tree.subtree (Rtree.mRefinements rt) treev) as [sub|] eqn:Hsub; [|done].
  simpl in Hl.
  destruct (leaves_sub_values _ _ _ _ Hl p Hp) as (q & x & Hval & Hq).
  exists (treev ++ q), x. split; [done|]. by rewrite subtree_app, Hsub.
Qed.

Lemma leafVertex_isReachable rt a b :
  leafVertex rt a → leafVertex rt b → is_Some (Rtree.isReachable rt a b).
Proof.
  intros (ta & xa & Ha & Hta) (tb & xb & Hb & Htb).
  unfold Rtree.isReachable, Rtree.nodeValue, tree.value.
  rewrite Ha, Hb. simpl. rewrite Hta, Htb. done.
Qed.

Lemma leafVertex_base rt s v : base rt = base s → leafVertex rt v → leafVertex s v.
Proof.
  unfold base, leafVertex, graph.value. intros [= _ _ _ -> ->]. done.
Qed.

(** A loop runs to its end when its body does in every state the invariant
    allows. *)
Lemma forEach_is_Some {A S} (I : S → Prop) (body : S → A → option S)
      (l : list A) (st : S) :
  I st →
  (∀ (st1 : S) x, x ∈ l → I st1 → ∃ st2, body st1 x = Some st2 ∧ I st2) →
  ∃ st', forEach body l st = Some st' ∧ I st'.
Proof.
  revert st. induction l as [|x l IH]; intros st Hst Hbody; simpl; [by exists st|].
  destruct (Hbody st x) as (st1 & -> & Hst1); [by left|done|]. simpl.
  apply IH; [done|]. intros st2 y Hy. apply Hbody. by right.
Qed.

(** The edge loops of [refine] run to their end from a state in which the
    new children and the leaves below the neighbours are leaf vertices. *)
Lemma link_children_total (mid : Rtree.RefinementTree)
      (pres posts refinedNodes : list graph.VertexT) :
  (∀ c, c ∈ refinedNodes → leafVertex mid c) →
  (∀ n, n ∈ pres ++ posts → is_Some (Rtree.leaves mid n)) →
  is_Some
    (forEach (λ s refined,
       s1 ← forEach (λ s pre,
              ls ← Rtree.leaves s pre;
              forEach (λ s preLeaf, Rtree.linkIfReachable s preLeaf refined) ls s)
            pres s;
       forEach (λ s post,
              ls ← Rtree.leaves s post;
              forEach (λ s postLeaf, Rtree.linkIfReachable s refined postLeaf) ls s)
            posts s1)
      refinedNodes mid).
Proof.
  intros Hc Hn.
  assert (Hlink : ∀ s a b, base s = base mid → leafVertex mid a → leafVertex mid b →
                           ∃ s', Rtree.linkIfReachable s a b = Some s' ∧ base s' = base mid).
  { intros s a b Hb Ha Hb'. unfold Rtree.linkIfReachable.
    destruct (leafVertex_isReachable s a b) as [k Hk];
      [by eapply leafVertex_base..|].
    rewrite Hk. simpl. eexists. split; [done|].
    destruct (possibly k); [|done].
    rewrite base_withMappings; [done|]. apply vertexMap_addEdge. }
  assert (Hloop : ∀ (body : Rtree.RefinementTree → graph.VertexT → option Rtree.RefinementTree)
                    (l : list graph.VertexT) s,
             (∀ s p, base s = base mid → leafVertex mid p →
                     ∃ s', body s p = Some s' ∧ base s' = base mid) →
             (∀ n, n ∈ l → is_Some (Rtree.leaves mid n)) →
             base s = base mid →
             ∃ s', forEach (λ s n, ls ← Rtree.leaves s n; forEach body ls s) l s
                   = Some s' ∧ base s' = base mid).
  { intros body l s Hbody Hl Hs.
    apply (forEach_is_Some (λ s, base s = base mid)); [done|].
    intros s1 n Hin Hs1. rewrite (leaves_base s1 mid) by done.
    destruct (Hl n Hin) as [ls Hls]. rewrite Hls. simpl.
    apply (forEach_is_Some (λ s, base s = base mid)); [done|].
    intros s2 p Hp Hs2. apply Hbody; [done|]. by eapply leaves_leafVertex. }
  destruct (forEach_is_Some (λ s, base s = base mid)
              (λ s refined,
                 s1 ← forEach (λ s pre,
                        ls ← Rtree.leaves s pre;
                        forEach (λ s preLeaf, Rtree.linkIfReachable s preLeaf refined) ls s)
                      pres s;
                 forEach (λ s post,
                        ls ← Rtree.leaves s post;
                        forEach (λ s postLeaf, Rtree.linkIfReachable s refined postLeaf) ls s)
                      posts s1)
              refinedNodes mid) as (s' & -> & _); [done| |done].
  intros s c Hin Hs.
  destruct (Hloop (λ s preLeaf, Rtree.linkIfReachable s preLeaf c) pres s)
    as (s1 & -> & Hs1).
  { intros s0 p Hs0 Hp. by apply Hlink; [|done|apply Hc]. }
  { intros n ?. apply Hn, elem_of_app. by left. }
  { done. }
  simpl.
  apply (Hloop (λ s postLeaf, Rtree.linkIfReachable s c postLeaf) posts s1).
  - intros s0 p Hs0 Hp. by apply Hlink; [|apply Hc|done].
  - intros n ?. apply Hn, elem_of_app. by right.
  - done.
Qed.

(** [refine] returns on a tree whose edges join leaf vertices, for a vertex
    that stands for a leaf and a strategy that yields at most two boxes. *)
Lemma refine_returns rt v (r : Rtree.IRefinementStrategy) treev x :
  graph.value (Rtree.mMappings rt) v = Some treev →
  tree.subtree (Rtree.mRefinements rt) treev = Some (tree.Leaf x) →
  length (r (Rtree.getEnclosure x)) ≤ 2 →
  (∀ a b, (a, b) ∈ edgesOf rt → leafVertex rt a ∧ leafVertex rt b) →
  is_Some (Rtree.refine rt v r).
Proof.
  intros Hv Hleaf Hlen Hedges. unfold Rtree.refine.
  rewrite Hv. cbn [mbind option_bind].
  unfold tree.value at 1. rewrite Hleaf. cbn [fmap option_fmap option_map mbind option_bind tree.label].
  assert (is_Some (Rtree.transform_tvals rt (r (Rtree.getEnclosure x)))) as [tvals ->].
  { unfold Rtree.transform_tvals.
    destruct (r (Rtree.getEnclosure x)) as [|e0 [|e1 [|e2 l]]]; [done..|simpl in Hlen; lia]. }
  cbn [mbind option_bind].
  destruct (expand_total (Rtree.mRefinements rt) treev x tvals Hleaf) as [t' Hex].
  rewrite Hex. cbn [mbind option_bind Rtree.mRefinements Rtree.withRefinements].
  rewrite (expand_children _ _ _ _ Hex).
  unfold Rtree.addChildVertices. cbn [foldl]. unfold graph.addVertex. cbn [fst snd app].
  cbn [Rtree.mMappings Rtree.withRefinements graph.vertexMap graph.edgeList].
  set (vm := graph.vertexMap (Rtree.mMappings rt)).
  set (c0 := fresh (dom vm)).
  set (vm0 := <[c0 := treev ++ [false]]> vm).
  set (c1 := fresh (dom vm0)).
  set (mid := Rtree.withMappings _ _).
  assert (Hc0 : vm !! c0 = None) by apply not_elem_of_dom, is_fresh.
  assert (Hc1 : vm0 !! c1 = None) by apply not_elem_of_dom, is_fresh.
  assert (Hc01 : c0 ≠ c1).
  { intros Heq. unfold vm0 in Hc1. by rewrite Heq, lookup_insert_eq in Hc1. }
  destruct (expand_subtree _ _ _ _ Hex) as (x' & Hx' & Hbranch).
  assert (Hkeep : ∀ n tn, vm !! n = Some tn →
                          graph.value (Rtree.mMappings mid) n = Some tn).
  { intros n tn Hn. unfold graph.value, mid. simpl.
    rewrite lookup_insert_ne; [|intros <-; unfold vm0 in Hc1;
      apply lookup_insert_None in Hc1 as [Hc1 _]; congruence].
    unfold vm0. rewrite lookup_insert_ne; [done|]. intros <-. congruence. }
  assert (Hchild0 : graph.value (Rtree.mMappings mid) c0 = Some (treev ++ [false])).
  { unfold graph.value, mid. simpl. rewrite lookup_insert_ne by done.
    unfold vm0. by rewrite lookup_insert_eq. }
  assert (Hchild1 : graph.value (Rtree.mMappings mid) c1 = Some (treev ++ [true])).
  { unfold graph.value, mid. simpl. by rewrite lookup_insert_eq. }
  assert (Hleaves : ∀ n, leafVertex rt n → is_Some (Rtree.leaves mid n)).
  { intros n (tn & y & Hn & Htn). unfold Rtree.leaves, Rtree.leaves_tree.
    rewrite (Hkeep n tn Hn). cbn [mbind option_bind]. simpl Rtree.mRefinements.
    destruct (decide (tn = treev)) as [->|Hne].
    - rewrite Hbranch. cbn [mbind option_bind]. apply leaves_sub_total.
      intros q z Hq. destruct q as [|[] [|??]]; simpl in Hq; try done.
      + by eapply findVertex_is_Some.
      + by eapply findVertex_is_Some.
    - rewrite (expand_other_leaf _ _ _ _ _ _ Hex Htn Hne).
      cbn [mbind option_bind Rtree.leaves_sub]. destruct (findVertex_is_Some (Rtree.mMappings mid) n tn) as [iv ->];
        [by apply Hkeep|done]. }
  match goal with
  | |- is_Some (?loops ≫= _) =>
      assert (is_Some loops) as [rt3 ->]; [|done]
  end.
  apply link_children_total.
  - intros c Hc. apply elem_of_cons in Hc as [-> | Hc];
      [|apply list_elem_of_singleton in Hc as ->].
    + exists (treev ++ [false]), tvals.1. split; [done|]. simpl.
      by rewrite subtree_app, Hbranch.
    + exists (treev ++ [true]), tvals.2. split; [done|]. simpl.
      by rewrite subtree_app, Hbranch.
  - assert (leafVertex rt v) as Hvleaf by (by exists treev, x).
    intros n Hn. apply Hleaves.
    apply elem_of_app in Hn as [Hn|Hn];
      apply elem_of_app in Hn as [Hn | ->%list_elem_of_singleton]; try done.
    + unfold Rtree.preimage, graph.inEdges in Hn.
      apply list_elem_of_fmap in Hn as ([a b] & -> & [_ He]%list_elem_of_filter).
      exact (proj1 (Hedges a b He)).
    + unfold Rtree.postimage, graph.outEdges in Hn.
      apply list_elem_of_fmap in Hn as ([a b] & -> & [_ He]%list_elem_of_filter).
      exact (proj2 (Hedges a b He)).
Qed.
End refine_returns.

Section refine_theorems.
Context `{Num : Numeric}.
Implicit Types (rt s : Rtree.RefinementTree) (v : graph.VertexT).

(** C9 (frame of [refine]): a call [refine( v, r )] changes only the tree and
    the leaf-mapping graph; the constraint set and the dynamics returned by
    the accessors, and the stored effort, are the same afterwards. *)
Theorem refine_frame rt v r rt' :
  Rtree.refine rt v r = Some rt' →
  Rtree.constraints rt' = Rtree.constraints rt ∧
  Rtree.dynamics rt' = Rtree.dynamics rt ∧
  Rtree.mEffort rt' = Rtree.mEffort rt.
Proof.
  intros (treev & tv & tvals & t' & rt3 & _ & _ & _ & _ & Hloop & ->)%refine_unfold.
  cbv zeta in Hloop. apply link_children_edges in Hloop as [Hb _].
  unfold base in Hb. simpl in Hb. injection Hb as Hc Hd He _ _.
  unfold Rtree.constraints, Rtree.dynamics. simpl. done.
Qed.

(** C4 (edges after [refine]): with P and S the pre- and post-image of the
    leaf, each with the leaf appended, [refine] expands the leaf, adds one
    vertex per child, adds for each child c the edge p' → c for every
    descendant leaf p' of a member of P with possibly( isReachable( p', c ) )
    and the edge c → s' for every descendant leaf s' of a member of S with
    possibly( isReachable( c, s' ) ), and removes the leaf's vertex with its
    incident edges; the edges afterwards are exactly the old ones and these,
    less those at the removed vertex. *)
Theorem refine_edges rt v r rt' :
  Rtree.refine rt v r = Some rt' →
  ∃ (treev : tree.NodeT) tvals t' (c0 c1 : graph.VertexT),
    graph.value (Rtree.mMappings rt) v = Some treev ∧
    (* the expansion and the vertices of the two children *)
    tree.expand (Rtree.mRefinements rt) treev tvals = Some t' ∧
    tree.children t' treev = [treev ++ [false]; treev ++ [true]] ∧
    graph.value (Rtree.mMappings rt) c0 = None ∧
    graph.value (Rtree.mMappings rt) c1 = None ∧
    c0 ≠ c1 ∧
    (* the state in which the edges are computed *)
    let mid :=
      Rtree.MkRefinementTree
        (Rtree.mConstraints rt) (Rtree.mDynamics rt) (Rtree.mEffort rt) t'
        (graph.MkGraph
           (<[c1 := treev ++ [true]]>
              (<[c0 := treev ++ [false]]> (graph.vertexMap (Rtree.mMappings rt))))
           (edgesOf rt)) in
    (* the state returned *)
    Rtree.mRefinements rt' = t' ∧
    graph.vertexMap (Rtree.mMappings rt')
    = delete v (graph.vertexMap (Rtree.mMappings mid)) ∧
    ∀ a b,
      (a, b) ∈ edgesOf rt' ↔
      a ≠ v ∧ b ≠ v ∧
      ((a, b) ∈ edgesOf rt ∨
       ∃ c, c ∈ [c0; c1] ∧
            (addsPre mid (Rtree.preimage rt v ++ [v]) c (a, b) ∨
             addsPost mid (Rtree.postimage rt v ++ [v]) c (a, b))).
Proof.
  intros (treev & tv & tvals & t' & rt3 & Hv & _ & _ & Hex & Hloop & ->)%refine_unfold.
  cbv zeta in Hloop.
  set (vm := graph.vertexMap (Rtree.mMappings rt)) in *.
  set (c0 := fresh (dom vm)) in *.
  set (vm0 := <[c0 := treev ++ [false]]> vm) in *.
  set (c1 := fresh (dom vm0)) in *.
  set (mid := Rtree.withMappings _ _) in Hloop.
  apply link_children_edges in Hloop as [Hb He].
  assert (Hc0 : vm !! c0 = None) by apply not_elem_of_dom, is_fresh.
  assert (Hc1 : vm0 !! c1 = None) by apply not_elem_of_dom, is_fresh.
  exists treev, tvals, t', c0, c1. split; [done|]. split; [done|].
  split; [exact (expand_children _ _ _ _ Hex)|].
  split; [done|]. split.
  { unfold graph.value. fold vm. unfold vm0 in Hc1.
    apply lookup_insert_None in Hc1. tauto. }
  split.
  { intros Heq. unfold vm0 in Hc1. rewrite Heq, lookup_insert_eq in Hc1. done. }
  change (Rtree.mRefinements
            (Rtree.withMappings rt3 (graph.removeVertex (Rtree.mMappings rt3) v)) = t' ∧
          graph.vertexMap
            (Rtree.mMappings
               (Rtree.withMappings rt3 (graph.removeVertex (Rtree.mMappings rt3) v)))
          = delete v (graph.vertexMap (Rtree.mMappings mid)) ∧
          ∀ a b,
            (a, b) ∈ edgesOf
                       (Rtree.withMappings rt3
                          (graph.removeVertex (Rtree.mMappings rt3) v)) ↔
            a ≠ v ∧ b ≠ v ∧
            ((a, b) ∈ edgesOf rt ∨
             ∃ c, c ∈ [c0; c1] ∧
                  (addsPre mid (Rtree.preimage rt v ++ [v]) c (a, b) ∨
                   addsPost mid (Rtree.postimage rt v ++ [v]) c (a, b)))).
  unfold base in Hb. injection Hb as _ _ _ Ht Hvm.
  split; [done|]. split; [simpl; by rewrite Hvm|].
  intros a b. unfold edgesOf at 1, Rtree.withMappings. cbn [Rtree.mMappings].
  rewrite elem_of_removeVertex. fold (edgesOf rt3). rewrite He. done.
Qed.

(** C6, as amended: the safety flag of each child [refine] creates is the
    verdict constraints.overlaps( box ).check( effort ) on the child's own
    box, whatever the flag of the parent. *)
Theorem refine_child_safety rt v r rt' treev parent (b : bool) e :
  Rtree.refine rt v r = Some rt' →
  graph.value (Rtree.mMappings rt) v = Some treev →
  tree.value (Rtree.mRefinements rt) treev = Some parent →
  r (Rtree.getEnclosure parent) !! (if b then 1 else 0) = Some e →
  tree.value (Rtree.mRefinements rt') (treev ++ [b])
  = Some (Rtree.MkTreeValue e
            (check (overlaps (Rtree.constraints rt) e) (Rtree.mEffort rt))).
Proof.
  intros (treev' & tv & tvals & t' & rt3 & Hv & Htv & Htvals & Hex & Hloop & ->)%refine_unfold
         Hv' Hp He.
  cbv zeta in Hloop. apply link_children_edges in Hloop as [Hb _].
  unfold base in Hb. injection Hb as _ _ _ Ht _.
  simplify_eq. simpl.
  destruct (expand_child_values _ _ _ _ Hex) as [H0 H1].
  unfold Rtree.transform_tvals in Htvals. unfold Rtree.constraints.
  destruct (r (Rtree.getEnclosure _)) as [|e0 [|e1 [|??]]];
    destruct b; simplify_eq/=; done.
Qed.
End refine_theorems.

(** [new] builds [rootTree], and bisecting its root gives [splitTree]. *)
Example new_rootTree : Rtree.new (0, 4)%Z (0, 1)%Z 0%Z 1 = Some Run.rootTree.
Proof. vm_compute. reflexivity. Qed.

Example refine_rootTree :
  Rtree.refine Run.rootTree 0 Interval1D.bisect = Some Run.splitTree.
Proof. vm_compute. reflexivity. Qed.

Lemma refine_frame_witness :
  Rtree.refine Run.rootTree 0 Interval1D.bisect = Some Run.splitTree ∧
  Rtree.constraints Run.splitTree = Rtree.constraints Run.rootTree ∧
  Rtree.dynamics Run.splitTree = Rtree.dynamics Run.rootTree ∧
  Rtree.mEffort Run.splitTree = Rtree.mEffort Run.rootTree.
Proof.
  split; [vm_compute; reflexivity|].
  apply (refine_frame Run.rootTree 0 Interval1D.bisect). vm_compute. reflexivity.
Defined.

Lemma refine_edges_witness :
  Rtree.refine Run.rootTree 0 Interval1D.bisect = Some Run.splitTree ∧
  ∃ (treev : tree.NodeT) tvals t' (c0 c1 : graph.VertexT),
    graph.value (Rtree.mMappings Run.rootTree) 0 = Some treev ∧
    tree.expand (Rtree.mRefinements Run.rootTree) treev tvals = Some t' ∧
    tree.children t' treev = [treev ++ [false]; treev ++ [true]] ∧
    graph.value (Rtree.mMappings Run.rootTree) c0 = None ∧
    graph.value (Rtree.mMappings Run.rootTree) c1 = None ∧
    c0 ≠ c1 ∧
    let mid :=
      Rtree.MkRefinementTree
        (Rtree.mConstraints Run.rootTree) (Rtree.mDynamics Run.rootTree)
        (Rtree.mEffort Run.rootTree) t'
        (graph.MkGraph
           (<[c1 := treev ++ [true]]>
              (<[c0 := treev ++ [false]]>
                 (graph.vertexMap (Rtree.mMappings Run.rootTree))))
           (edgesOf Run.rootTree)) in
    Rtree.mRefinements Run.splitTree = t' ∧
    graph.vertexMap (Rtree.mMappings Run.splitTree)
    = delete 0 (graph.vertexMap (Rtree.mMappings mid)) ∧
    ∀ a b,
      (a, b) ∈ edgesOf Run.splitTree ↔
      a ≠ 0 ∧ b ≠ 0 ∧
      ((a, b) ∈ edgesOf Run.rootTree ∨
       ∃ c, c ∈ [c0; c1] ∧
            (addsPre mid (Rtree.preimage Run.rootTree 0 ++ [0]) c (a, b) ∨
             addsPost mid (Rtree.postimage Run.rootTree 0 ++ [0]) c (a, b))).
Proof.
  split; [vm_compute; reflexivity|].
  apply (refine_edges Run.rootTree 0 Interval1D.bisect Run.splitTree).
  vm_compute. reflexivity.
Defined.

(** C6 fails as stated: the root [0, 4] overlaps the safe set [0, 1] and is
    flagged safe; bisecting it creates the child [2, 4], whose flag is not. *)
Lemma refine_safety_not_inherited :
  Rtree.refine Run.rootTree 0 Interval1D.bisect = Some Run.splitTree ∧
  Rtree.isSafe <$> Rtree.nodeValue Run.rootTree 0 = Some KTrue ∧
  tree.children (Rtree.mRefinements Run.splitTree) [] = [[false]; [true]] ∧
  Rtree.isSafe <$> tree.value (Rtree.mRefinements Run.splitTree) [true] = Some KFalse.
Proof. vm_compute. done. Qed.

Lemma refine_child_safety_witness :
  Rtree.refine Run.rootTree 0 Interval1D.bisect = Some Run.splitTree ∧
  graph.value (Rtree.mMappings Run.rootTree) 0 = Some [] ∧
  tree.value (Rtree.mRefinements Run.rootTree) [] = Some Run.rootValue ∧
  Interval1D.bisect (0, 4)%Z !! 1 = Some (2, 4)%Z ∧
  tree.value (Rtree.mRefinements Run.splitTree) ([] ++ [true])
  = Some (Rtree.MkTreeValue (Num := Interval1D.kernel) (2, 4)%Z
            (check (overlaps (Rtree.constraints Run.rootTree) (2, 4)%Z)
                   (Rtree.mEffort Run.rootTree))).
Proof.
  repeat (split; [vm_compute; reflexivity|]).
  apply (refine_child_safety Run.rootTree 0 Interval1D.bisect Run.splitTree []
           Run.rootValue true (2, 4)%Z);
    vm_compute; reflexivity.
Defined.

Section image_theorems.
Context `{Num : Numeric}.

Lemma imageRecursive_sub_values (g : graph.AdjacencyDiGraph tree.NodeT) from sub to ns :
  Rtree.imageRecursive_sub g from sub to = Some ns →
  ∀ v, v ∈ ns →
       ∃ p x, graph.value g v = Some (to ++ p) ∧
              tree.subtree sub p = Some (tree.Leaf x).
Proof.
  revert to ns. induction sub as [x|x c0 IH0 c1 IH1]; intros to ns; simpl.
  - destruct (definitely _).
    { intros [= <-] v Hv. by apply elem_of_nil in Hv. }
    destruct (graph.findVertex g to) as [iv|] eqn:Hf; [|done].
    intros [= <-] v ->%list_elem_of_singleton.
    exists [], x. rewrite app_nil_r. split; [by apply findVertex_value|done].
  - destruct (definitely _).
    { intros [= <-] v Hv. by apply elem_of_nil in Hv. }
    destruct (Rtree.imageRecursive_sub g from c0 _) as [rns0|] eqn:H0; [|done].
    destruct (Rtree.imageRecursive_sub g from c1 _) as [rns1|] eqn:H1; [|done].
    intros [= <-] v [Hv|Hv]%elem_of_app.
    + destruct (IH0 _ _ H0 v Hv) as (p & y & Hval & Hsub).
      exists (false :: p), y. by rewrite <- app_assoc in Hval.
    + destruct (IH1 _ _ H1 v Hv) as (p & y & Hval & Hsub).
      exists (true :: p), y. by rewrite <- app_assoc in Hval.
Qed.

Lemma imageRecursive_sub_NoDup (g : graph.AdjacencyDiGraph tree.NodeT) from sub to ns :
  Rtree.imageRecursive_sub g from sub to = Some ns → NoDup ns.
Proof.
  revert to ns. induction sub as [x|x c0 IH0 c1 IH1]; intros to ns; simpl.
  - destruct (definitely _); [intros [= <-]; constructor|].
    destruct (graph.findVertex g to); [|done].
    intros [= <-]. apply NoDup_singleton.
  - destruct (definitely _); [intros [= <-]; constructor|].
    destruct (Rtree.imageRecursive_sub g from c0 _) as [rns0|] eqn:H0; [|done].
    destruct (Rtree.imageRecursive_sub g from c1 _) as [rns1|] eqn:H1; [|done].
    intros [= <-]. apply NoDup_app. split; [by eapply IH0|].
    split; [|by eapply IH1]. intros v Hv0 Hv1.
    destruct (imageRecursive_sub_values _ _ _ _ _ H0 v Hv0) as (p0 & ? & Hval0 & _).
    destruct (imageRecursive_sub_values _ _ _ _ _ H1 v Hv1) as (p1 & ? & Hval1 & _).
    rewrite Hval0 in Hval1. rewrite <- !app_assoc in Hval1.
    injection Hval1 as Heq. apply app_inv_head in Heq. done.
Qed.

Lemma imageRecursive_sub_total (g : graph.AdjacencyDiGraph tree.NodeT) from sub to :
  (∀ p x, tree.subtree sub p = Some (tree.Leaf x) →
          is_Some (graph.findVertex g (to ++ p))) →
  is_Some (Rtree.imageRecursive_sub g from sub to).
Proof.
  revert to. induction sub as [x|x c0 IH0 c1 IH1]; intros to Hall; simpl.
  - destruct (definitely _); [done|].
    destruct (Hall [] x eq_refl) as [iv Hiv]. rewrite app_nil_r in Hiv.
    by rewrite Hiv.
  - destruct (definitely _); [done|].
    destruct (IH0 (to ++ [false])) as [rns0 ->].
    { intros p y Hp. rewrite <- app_assoc. by apply (Hall (false :: p) y). }
    destruct (IH1 (to ++ [true])) as [rns1 ->].
    { intros p y Hp. rewrite <- app_assoc. by apply (Hall (true :: p) y). }
    done.
Qed.

(** C10 (no duplicates in the image): for every query enclosure, the vector
    [image( from )] returns has no duplicate handle, and every handle in it
    is the vertex of a leaf of the tree; the descent goes through each tree
    node once and collects only leaves.  [image] returns whenever every leaf
    has its graph vertex. *)
Theorem image_NoDup (rt : Rtree.RefinementTree) (from : Enclosure) :
  (∀ ns, Rtree.image rt from = Some ns →
         NoDup ns ∧
         ∀ v, v ∈ ns →
              ∃ treev, graph.value (Rtree.mMappings rt) v = Some treev ∧
                       tree.isLeaf (Rtree.mRefinements rt) treev = true) ∧
  ((∀ treev x, tree.subtree (Rtree.mRefinements rt) treev = Some (tree.Leaf x) →
               is_Some (graph.findVertex (Rtree.mMappings rt) treev)) →
   is_Some (Rtree.image rt from)).
Proof.
  unfold Rtree.image, Rtree.imageRecursive. simpl. split.
  - intros ns Himg. split; [by eapply imageRecursive_sub_NoDup|].
    intros v Hv.
    destruct (imageRecursive_sub_values _ _ _ _ _ Himg v Hv) as (p & x & Hval & Hsub).
    exists p. split; [done|]. unfold tree.isLeaf. by rewrite Hsub.
  - intros Hall. by apply imageRecursive_sub_total.
Qed.
End image_theorems.

Lemma image_NoDup_witness :
  Rtree.image Run.splitTree (0, 4)%Z = Some [1; 2] ∧ NoDup [1; 2].
Proof.
  split; [vm_compute; reflexivity|].
  apply (image_NoDup Run.splitTree (0, 4)%Z). vm_compute. reflexivity.
Defined.

(** * Properties of the comparator, of [nodeValue] and of [isSpurious] *)

Section cegar_theorems.
Context `{Api : Cegar.RefinementTreeApi}.
Import Cegar.
Implicit Types (rtree : RT) (n h : NodeT).

(** C7 (what the comparator does): two concrete nodes compare by their
    identifiers; the outside sink precedes itself, and it neither precedes
    nor follows any concrete node. *)
Theorem NodeComparator_cases rtree n1 n2 :
  (∀ v1 v2, nodeValue rtree n1 = Some v1 → nodeValue rtree n2 = Some v2 →
            NodeComparator rtree n1 n2 = bool_decide (id v1 < id v2)) ∧
  (nodeValue rtree n1 = None → nodeValue rtree n2 = None →
   NodeComparator rtree n1 n2 = true) ∧
  (nodeValue rtree n1 = None → is_Some (nodeValue rtree n2) →
   NodeComparator rtree n1 n2 = false ∧ NodeComparator rtree n2 n1 = false).
Proof.
  unfold NodeComparator. split; [|split].
  - by intros v1 v2 -> ->.
  - by intros -> ->.
  - by intros -> [v2 ->].
Qed.

Lemma knot_involutive (k : Kleenean) : knot (knot k) = k.
Proof. by destruct k. Qed.

Lemma mapped_succ rtree k p :
  mapped rtree (S k) p = mapped rtree k (evaluate (dynamics rtree) p).
Proof. unfold mapped. by rewrite Nat.iter_succ_r. Qed.

(** The forward walk answers true exactly when some mapped point has left
    the path, and false otherwise. *)
Lemma mapForward_spec rtree counter p :
  let rtEnc := getEnclosure (treeValue rtree (treeRoot rtree)) in
  ((∃ i n, counter !! i = Some n ∧ lostAt rtree n (mapped rtree (S i) p) = true) →
   mapForward rtree rtEnc counter p = KTrue) ∧
  ((∀ i n, counter !! i = Some n → lostAt rtree n (mapped rtree (S i) p) = false) →
   mapForward rtree rtEnc counter p = KFalse).
Proof.
  intros rtEnc. revert p. induction counter as [|n counter IH]; intros p.
  { split; [intros (i & n & Hl & _); by rewrite lookup_nil in Hl|done]. }
  cbn [mapForward]. fold rtEnc.
  assert (Hhere : definitely (knot match nodeValue rtree n with
                   | Some next => contains (getEnclosure next) (evaluate (dynamics rtree) p)
                   | None => knot (contains rtEnc (evaluate (dynamics rtree) p))
                   end) = lostAt rtree n (mapped rtree 1 p)).
  { unfold lostAt, mapped. simpl. fold rtEnc.
    destruct (nodeValue rtree n); [done|]. by rewrite knot_involutive. }
  rewrite Hhere. destruct (IH (evaluate (dynamics rtree) p)) as [IHt IHf]. split.
  - intros (i & m & Hl & Hlost). destruct (lostAt rtree n _) eqn:Hn; [done|].
    apply IHt. destruct i as [|i]; simpl in Hl.
    + injection Hl as Hl. subst m.
      change (lostAt rtree n (mapped rtree 1 p) = true) in Hlost.
      by rewrite Hn in Hlost.
    + exists i, m. by rewrite <- mapped_succ.
  - intros Hall. rewrite (Hall 0 n eq_refl). apply IHf.
    intros i m Hl. rewrite <- mapped_succ. by apply (Hall (S i)).
Qed.

(** C3 ([isSpurious] on a path that starts at a concrete leaf): with p the
    centre of the first node's box, the answer is True when p lies in no
    node of the initial image; otherwise p is mapped forward along the
    path, the answer is True when some mapped point is definitely not in
    the box of its node (definitely inside the root box, for the outside
    sink), and False when the walk reaches the end of the path. *)
Theorem isSpurious_concrete rtree n0 counter image effort beginCex :
  nodeValue rtree n0 = Some beginCex →
  let p := centre (getEnclosure beginCex) in
  (¬ inSomeLeaf rtree image p →
   isSpurious rtree (n0 :: counter) image effort = Some KTrue) ∧
  (inSomeLeaf rtree image p →
   (∃ i n, counter !! i = Some n ∧ lostAt rtree n (mapped rtree (S i) p) = true) →
   isSpurious rtree (n0 :: counter) image effort = Some KTrue) ∧
  (inSomeLeaf rtree image p →
   (∀ i n, counter !! i = Some n → lostAt rtree n (mapped rtree (S i) p) = false) →
   isSpurious rtree (n0 :: counter) image effort = Some KFalse).
Proof.
  intros Hn0 p. unfold isSpurious. rewrite Hn0. fold p.
  assert (Hin : existsb (λ n, possibly (relates rtree n p (λ enc pt, contains enc pt)))
                        image = true ↔ inSomeLeaf rtree image p).
  { unfold inSomeLeaf. rewrite existsb_exists.
    setoid_rewrite <- list_elem_of_In. done. }
  destruct (existsb _ image) eqn:Hex; simpl.
  - apply proj1 in Hin. specialize (Hin eq_refl).
    destruct (mapForward_spec rtree counter p) as [Ht Hf].
    split; [done|]. split; intros _ Hw; f_equal; auto.
  - split; [done|]. split; intros Hsome; apply Hin in Hsome; done.
Qed.
End cegar_theorems.

(** * Properties of the counterexample search *)

Section search_theorems.
Context `{Api : Cegar.RefinementTreeApi}.
Import Cegar.
Implicit Types (rtree : RT) (n : NodeT) (img path cex : list NodeT).

Lemma findCounterexample_nil fuel rtree path :
  findCounterexample (S fuel) rtree [] path = Some [].
Proof. reflexivity. Qed.

Lemma findCounterexample_cons fuel rtree n img path :
  findCounterexample (S fuel) rtree (n :: img) path =
  if existsb (equal rtree n) path then findCounterexample (S fuel) rtree img path
  else if negb (definitely (isSafe rtree n)) then Some (path ++ [n])
  else
    cex ← findCounterexample fuel rtree (postimage rtree n) (path ++ [n]);
    match cex with
    | _ :: _ => Some cex
    | [] => findCounterexample (S fuel) rtree img path
    end.
Proof. reflexivity. Qed.

(** A non-empty result extends [path] by a valid extension that starts in
    the image. *)
Lemma findCounterexample_ext fuel rtree :
  ∀ img path cex,
    findCounterexample fuel rtree img path = Some cex → cex ≠ [] →
    ∃ n ext, cex = path ++ n :: ext ∧ n ∈ img ∧ validExt rtree path (n :: ext).
Proof.
  induction fuel as [|fuel IHf]; [done|].
  induction img as [|n img IHi]; intros path cex.
  { rewrite findCounterexample_nil. by intros [= <-]. }
  rewrite findCounterexample_cons.
  destruct (existsb (equal rtree n) path) eqn:Hloop.
  { intros Hrun Hne. destruct (IHi _ _ Hrun Hne) as (m & ext & -> & Hm & Hext).
    exists m, ext. split; [done|]. split; [by right|done]. }
  destruct (definitely (isSafe rtree n)) eqn:Hsafe; simpl.
  - destruct (findCounterexample fuel rtree (postimage rtree n) (path ++ [n]))
      as [[|c sub]|] eqn:Hrec; simpl; [| |done].
    + intros Hrun Hne. destruct (IHi _ _ Hrun Hne) as (m & ext & -> & Hm & Hext).
      exists m, ext. split; [done|]. split; [by right|done].
    + intros [= <-] _.
      destruct (IHf _ _ _ Hrec) as (m & ext & Heq & Hm & Hext); [done|].
      exists n, (m :: ext). rewrite Heq, <- app_assoc. split; [done|].
      split; [by left|]. simpl. simpl in Hext. done.
  - intros [= <-] _. exists n, []. split; [done|]. split; [by left|done].
Qed.

Lemma validExt_last rtree path ext :
  validExt rtree path ext →
  ∃ nk, last ext = Some nk ∧ definitely (isSafe rtree nk) = false.
Proof.
  revert path. induction ext as [|n ext IH]; intros path; [done|].
  destruct ext as [|m ext].
  - intros [_ Hs]. by exists n.
  - intros (_ & _ & _ & Hext). apply IH in Hext as (nk & Hl & Hs). by exists nk.
Qed.

Lemma validExt_isPath rtree path ext : validExt rtree path ext → isPath rtree ext.
Proof.
  revert path. induction ext as [|n ext IH]; intros path; [done|].
  destruct ext as [|m ext].
  - intros _ i a b _ Hb. destruct i; done.
  - intros (_ & _ & Hm & Hext) i a b Ha Hb. destruct i as [|i].
    + simpl in *. by simplify_eq.
    + by apply (IH _ Hext i).
Qed.

(** Every node of a valid extension is new to the path and to the nodes of
    the extension before it. *)
Lemma validExt_new rtree path ext :
  validExt rtree path ext →
  ∀ j b, ext !! j = Some b →
         existsb (equal rtree b) (path ++ take j ext) = false.
Proof.
  revert path. induction ext as [|n ext IH]; intros path; [done|].
  intros Hext j b Hj. destruct j as [|j].
  - simpl in Hj. injection Hj as <-. rewrite app_nil_r. by destruct Hext.
  - destruct ext as [|m ext]; [done|]. destruct Hext as (_ & _ & _ & Hext).
    specialize (IH _ Hext j b Hj). by rewrite <- app_assoc in IH.
Qed.

Lemma validExt_loopFree rtree ext : validExt rtree [] ext → loopFree rtree ext.
Proof.
  intros Hext i j a b Hij Ha Hb.
  pose proof (validExt_new _ _ _ Hext j b Hb) as Hnew. simpl in Hnew.
  destruct (equal rtree b a) eqn:Heq; [|done].
  assert (existsb (equal rtree b) (take j ext) = true); [|congruence].
  apply existsb_exists. exists a. split; [|done].
  apply list_elem_of_In, list_elem_of_lookup. exists i.
  by rewrite lookup_take_lt.
Qed.

(** C2 (validity of the counterexample): a non-empty path returned by
    [findCounterexample] starts at a node of the initial image, each next
    node is in the postimage of the one before it, the last node is not
    definitely safe, and no node of the path compares equal to an earlier
    one. *)
Theorem findCounterexample_valid fuel rtree img cex :
  findCounterexample fuel rtree img [] = Some cex →
  cex ≠ [] →
  (∃ n0, head cex = Some n0 ∧ n0 ∈ img) ∧
  isPath rtree cex ∧
  (∃ nk, last cex = Some nk ∧ definitely (isSafe rtree nk) = false) ∧
  loopFree rtree cex.
Proof.
  intros Hrun Hne.
  destruct (findCounterexample_ext _ _ _ _ _ Hrun Hne) as (n & ext & -> & Hn & Hext).
  simpl. split; [by exists n|]. split; [by eapply validExt_isPath|].
  split; [by eapply validExt_last|]. by apply validExt_loopFree.
Qed.
End search_theorems.

Section search_completeness.
Context `{Api : Cegar.RefinementTreeApi}.
Import Cegar.
Implicit Types (n : NodeT) (img path cex : list NodeT).

Variable rtree : RT.
Variable V : list NodeT.
(** The loop test never takes two different nodes of [V] for one another,
    and it recognises a definitely safe node of [V] when the search meets it
    again.  Nothing is asked of a node that is not definitely safe, such as
    the outside sink: the search returns at it and never puts it on the
    path before a further node. *)
Hypothesis equal_inj : ∀ a b, a ∈ V → b ∈ V → equal rtree a b = true → a = b.
Hypothesis equal_refl :
  ∀ a, a ∈ V → definitely (isSafe rtree a) = true → equal rtree a a = true.
Hypothesis closed : ∀ a b, a ∈ V → b ∈ postimage rtree a → b ∈ V.










End search_completeness.

Section search_empty.
Context `{Api : Cegar.RefinementTreeApi}.
Import Cegar.

End search_empty.

(** * Properties of the driver *)

Section driver_theorems.
Context `{Api : Cegar.RefinementTreeApi}.
Import Cegar.

Variable initialSet : Enclosure.
Variable effort : Effort.
Variable refinement : IRefinement.
Variable locator : list NodeT → list NodeT.
Variable maxNodes depth : nat.

Local Abbreviation loop := (cegar_loop initialSet effort refinement locator maxNodes).
Local Abbreviation rounds := (refinesIn initialSet effort refinement locator maxNodes depth).

Lemma provedUnsafe_test rtree initialImage c cex :
  ∃ spurious back,
    isSpurious rtree (c :: cex) initialImage effort = Some spurious ∧
    last (c :: cex) = Some back ∧
    (provedUnsafe rtree effort initialImage (c :: cex) ↔
     definitely (knot spurious) && definitely (knot (isSafe rtree back)) = true).
Proof.
  assert (is_Some (isSpurious rtree (c :: cex) initialImage effort)) as [s Hs].
  { unfold isSpurious. destruct (nodeValue rtree c); repeat case_match; done. }
  assert (is_Some (last (c :: cex))) as [back Hb].
  { rewrite last_lookup. apply lookup_lt_is_Some. simpl. lia. }
  exists s, back. split; [done|]. split; [done|].
  unfold provedUnsafe. rewrite Hs, Hb, andb_true_iff. split.
  - intros (s' & b' & [= <-] & [= <-] & ? & ?). done.
  - intros [? ?]. by exists s, back.
Qed.

(** One unfolding of the loop. *)
Lemma cegar_loop_step fuel rtree initialImage :
  loop (S fuel) depth rtree initialImage =
  if bool_decide (treeSize rtree < maxNodes) then
    counterexample ← findCounterexample depth rtree initialImage [];
    match counterexample with
    | [] => Some (KTrue, [])
    | _ :: _ =>
        spurious ← isSpurious rtree counterexample initialImage effort;
        back ← last counterexample;
        if definitely (knot spurious) && definitely (knot (isSafe rtree back))
        then Some (KFalse, counterexample)
        else
          let '(rtree', initialImage') :=
            foldl (refineNode initialSet refinement) (rtree, initialImage)
                  (locator counterexample) in
          loop fuel depth rtree' initialImage'
    end
  else Some (KIndeterminate, []).
Proof. reflexivity. Qed.

Lemma cegar_loop_iff fuel :
  ∀ rtree initialImage res,
    loop fuel depth rtree initialImage = Some res ↔
    ∃ k rtree' initialImage',
      k < fuel ∧
      rounds k (rtree, initialImage) (rtree', initialImage') ∧
      returnsWith effort maxNodes depth rtree' initialImage' res.
Proof.
  induction fuel as [|fuel IH]; intros rtree initialImage res.
  { split; [done|]. intros (k & ? & ? & Hk & _). lia. }
  rewrite cegar_loop_step. case_bool_decide as Hsize.
  2:{ split.
      - intros [= <-]. exists 0, rtree, initialImage.
        split; [lia|]. split; [constructor|]. left. done.
      - intros (k & rt' & img' & _ & Hr & Hout). inversion Hr; subst; [|done].
        destruct Hout as [[_ ->]|[[? _]|[? _]]]; done. }
  destruct (findCounterexample depth rtree initialImage []) as [[|c cex]|] eqn:Hfc;
    cbn [mbind option_bind].
  - split.
    + intros [= <-]. exists 0, rtree, initialImage.
      split; [lia|]. split; [constructor|]. right; left. done.
    + intros (k & rt' & img' & _ & Hr & Hout). inversion Hr; subst.
      * destruct Hout as [[? _]|[(_ & _ & ->)|(_ & cex & Hc & ? & _)]];
          [done|done|congruence].
      * congruence.
  - destruct (provedUnsafe_test rtree initialImage c cex)
      as (s & back & Hs & Hb & Htest).
    rewrite Hs. cbn [mbind option_bind]. rewrite Hb. cbn [mbind option_bind].
    destruct (definitely (knot s) && definitely (knot (isSafe rtree back))) eqn:Ht.
    + apply proj2 in Htest. specialize (Htest eq_refl). split.
      * intros [= <-]. exists 0, rtree, initialImage.
        split; [lia|]. split; [constructor|]. right; right.
        split; [done|]. by exists (c :: cex).
      * intros (k & rt' & img' & _ & Hr & Hout). inversion Hr; subst.
        -- destruct Hout as [[? _]|[(_ & ? & _)|(_ & cex' & Hc & _ & _ & ->)]];
             [done|congruence|congruence].
        -- exfalso. assert (cex0 = c :: cex) as -> by congruence. done.
    + assert (¬ provedUnsafe rtree effort initialImage (c :: cex)) as Hnot.
      { rewrite Htest. done. }
      destruct (foldl _ _ _) as [rtree1 initialImage1] eqn:Hfold.
      rewrite IH. split.
      * intros (k & rt' & img' & Hk & Hr & Hout). exists (S k), rt', img'.
        split; [lia|]. split; [|done].
        eapply refines_S; [done..|]. by rewrite Hfold.
      * intros (k & rt' & img' & Hk & Hr & Hout). inversion Hr; subst.
        -- destruct Hout as [[? _]|[(_ & ? & _)|(_ & cex' & Hc & _ & Hp & _)]];
             [done|congruence|].
           exfalso. assert (cex' = c :: cex) as -> by congruence. done.
        -- assert (cex0 = c :: cex) as -> by congruence.
           exists k0, rt', img'. split; [lia|]. split; [|done].
           by rewrite <- Hfold.
  - split; [done|]. intros (k & rt' & img' & _ & Hr & Hout). inversion Hr; subst.
    + destruct Hout as [[? _]|[(_ & ? & _)|(_ & cex' & Hc & _)]]; [done|congruence..].
    + congruence.
Qed.

(** C1 (outcomes of the driver): [cegar] returns a result exactly when,
    after some iterations that all began below [maxNodes] nodes and ended in
    a refinement, an iteration begins with the tree at or above [maxNodes]
    nodes and returns (Indeterminate, []), or finds the empty path and
    returns (True, []), or finds a counterexample that is definitely not
    spurious and whose last node is definitely not safe, and returns
    (False, counterexample).  An iteration ends in a refinement only when
    its counterexample fails that test. *)
Theorem cegar_outcomes (fuel : nat) (rtree : RT) (res : Kleenean * list NodeT) :
  let initialImage :=
    set_insert_range (NodeComparator rtree) (image rtree initialSet) [] in
  cegar initialSet effort refinement locator maxNodes fuel depth rtree = Some res ↔
  ∃ k rtree' initialImage',
    k < fuel ∧
    refinesIn initialSet effort refinement locator maxNodes depth k
              (rtree, initialImage) (rtree', initialImage') ∧
    ((¬ treeSize rtree' < maxNodes ∧ res = (KIndeterminate, [])) ∨
     (treeSize rtree' < maxNodes ∧
      findCounterexample depth rtree' initialImage' [] = Some [] ∧
      res = (KTrue, [])) ∨
     (treeSize rtree' < maxNodes ∧
      ∃ cex, findCounterexample depth rtree' initialImage' [] = Some cex ∧
             cex ≠ [] ∧
             provedUnsafe rtree' effort initialImage' cex ∧
             res = (KFalse, cex))).
Proof.
  intros initialImage. unfold cegar. fold initialImage.
  rewrite cegar_loop_iff. unfold returnsWith. done.
Qed.
End driver_theorems.

(** * The theorems on concrete inputs *)

Section runs.
Import Cegar.

(** In [splitState] the search from leaf 1 = [0, 2] finds the path to the
    unsafe leaf 2 = [2, 4]. *)
Example findCounterexample_splitState :
  findCounterexample 3 Run.splitState [1] [] = Some [1; 2].
Proof. vm_compute. reflexivity. Qed.

(** The centre 1 of [0, 2] stays at 1 under the identity and is not in
    [2, 4]: the path is spurious. *)
Example isSpurious_splitState :
  isSpurious Run.splitState [1; 2] [1] 1 = Some KTrue.
Proof. vm_compute. reflexivity. Qed.

(** With handle 7 not live, hence standing for the outside sink, and the
    concrete root 0: the sink precedes itself, and the sink and the root
    do not precede each other. *)
Example NodeComparator_rootState :
  NodeComparator Run.rootState 7 7 = true ∧
  NodeComparator Run.rootState 7 0 = false ∧
  NodeComparator Run.rootState 0 7 = false.
Proof. vm_compute. done. Qed.

(** The driver on the safe set [2, 3]: the root is unsafe and its centre
    stays in it. *)
Example cegar_unsafe_root : Run.run (0, 1)%Z (2, 3)%Z 0 2 = Some (KFalse, [0]).
Proof. vm_compute. reflexivity. Qed.

(** The driver from [splitState]: the spurious path [1; 2] makes it bisect
    leaf 1; the new leaf 4 = [1, 2] touches the initial set and is unsafe,
    and its centre stays in it. *)
Example cegar_loop_splitState :
  cegar_loop (0, 1)%Z 1 Interval1D.bisect Run.allButLast 9 4 4 Run.splitState [1]
  = Some (KFalse, [4]).
Proof. vm_compute. reflexivity. Qed.
End runs.

Lemma NodeComparator_cases_witness :
  Cegar.nodeValue Run.rootState 7 = None ∧
  Cegar.NodeComparator Run.rootState 7 7 = true.
Proof.
  split; [vm_compute; reflexivity|].
  apply (NodeComparator_cases (Api := Run.api) Run.rootState 7 7); vm_compute; reflexivity.
Defined.

Lemma isSpurious_concrete_witness :
  Cegar.isSpurious Run.splitState [1; 2] [1] 1 = Some KTrue.
Proof.
  refine (proj1 (proj2 (isSpurious_concrete (Api := Run.api) Run.splitState 1 [2] [1] 1
                          ([false], Run.lowerValue) _)) _ _).
  - vm_compute. reflexivity.
  - exists 1. split; [by left|]. vm_compute. reflexivity.
  - exists 0, 2. split; vm_compute; reflexivity.
Defined.

Lemma findCounterexample_valid_witness :
  Cegar.findCounterexample 3 Run.splitState [1] [] = Some [1; 2] ∧
  (∃ n0, head [1; 2] = Some n0 ∧ n0 ∈ [1]) ∧
  isPath Run.splitState [1; 2] ∧
  (∃ nk, last [1; 2] = Some nk ∧ definitely (Cegar.isSafe Run.splitState nk) = false) ∧
  loopFree Run.splitState [1; 2].
Proof.
  split; [vm_compute; reflexivity|].
  apply (findCounterexample_valid (Api := Run.api) 3 Run.splitState [1] [1; 2]).
  - vm_compute. reflexivity.
  - discriminate.
Defined.


Example new_twinTree :
  (rt0 ← Rtree.new (0, 100)%Z (0, 10)%Z 5%Z 1;
   rt1 ← Rtree.refine rt0 0 (λ _, [(0, 10); (12, 100)]%Z);
   rt2 ← Rtree.refine rt1 2 (λ _, [(40, 50); (12, 45)]%Z);
   rt3 ← Rtree.refine rt2 3 (λ _, [(12, 20); (40, 50)]%Z);
   Rtree.refine rt3 4 (λ _, [(0, 10); (0, 3)]%Z))
  = Some Run.twinTree.
Proof. vm_compute. reflexivity. Qed.



Lemma cegar_outcomes_witness :
  Cegar.cegar (0, 1)%Z 1 Interval1D.bisect Run.allButLast 1 1 4 Run.rootState
  = Some (KIndeterminate, []).
Proof.
  apply (cegar_outcomes (Api := Run.api) (0, 1)%Z 1 Interval1D.bisect Run.allButLast 1 4 1
           Run.rootState (KIndeterminate, [])).
  eexists 0, _, _. split; [lia|]. split; [constructor|].
  left. split; [vm_compute; lia|reflexivity].
Defined.

(** * Invariants of the refinement tree *)

Section consistency.
Context `{Num : Numeric}.
Implicit Types (rt : Rtree.RefinementTree) (v : graph.VertexT).

(** The leaves after [expand]: the other leaves and the two new ones. *)
Lemma expand_leaf_inv {T} (t : tree.LinkedFixedBranchTree T) n vs t' m y :
  tree.expand t n vs = Some t' →
  tree.subtree t' m = Some (tree.Leaf y) →
  (m ≠ n ∧ tree.subtree t m = Some (tree.Leaf y)) ∨
  (m = n ++ [false] ∧ y = vs.1) ∨ (m = n ++ [true] ∧ y = vs.2).
Proof.
  revert t t' m. induction n as [|b n IH]; intros t t' m Hex Hm.
  - destruct t as [x|]; simpl in Hex; simplify_eq.
    destruct m as [|[] [|??]]; simpl in Hm; simplify_eq; auto.
  - destruct t as [x|x c0 c1]; simpl in Hex; [by destruct b|].
    destruct b.
    + destruct (tree.expand c1 n vs) as [c1'|] eqn:E; simplify_eq/=.
      destruct m as [|[] m]; simpl in Hm; [done| |left; done].
      destruct (IH _ _ _ E Hm) as [[Hne Hs]|[[-> ->]|[-> ->]]]; auto.
      left. split; [congruence|done].
    + destruct (tree.expand c0 n vs) as [c0'|] eqn:E; simplify_eq/=.
      destruct m as [|[] m]; simpl in Hm; [done|left; done|].
      destruct (IH _ _ _ E Hm) as [[Hne Hs]|[[-> ->]|[-> ->]]]; auto.
      left. split; [congruence|done].
Qed.

(** [expand] keeps the value of every node the tree had. *)
Lemma expand_value_kept {T} (t : tree.LinkedFixedBranchTree T) n vs t' m y :
  tree.expand t n vs = Some t' →
  tree.value t m = Some y → tree.value t' m = Some y.
Proof.
  unfold tree.value. revert t t' m. induction n as [|b n IH]; intros t t' m Hex Hm.
  - destruct t as [x|]; simpl in Hex; simplify_eq.
    destruct m; simpl in *; [done|simplify_eq].
  - destruct t as [x|x c0 c1]; simpl in Hex; [by destruct b|].
    destruct b.
    + destruct (tree.expand c1 n vs) as [c1'|] eqn:E; simplify_eq/=.
      destruct m as [|[] m]; simpl in *; [done| |done]. by eapply IH.
    + destruct (tree.expand c0 n vs) as [c0'|] eqn:E; simplify_eq/=.
      destruct m as [|[] m]; simpl in *; [done|done|]. by eapply IH.
Qed.

(** What [refine] returns: tree, vertices, and where its edges come from. *)
Lemma refine_shape rt v r rt' :
  Rtree.refine rt v r = Some rt' →
  ∃ treev tv tvals (c0 c1 : graph.VertexT) (mid : Rtree.RefinementTree),
    graph.value (Rtree.mMappings rt) v = Some treev ∧
    tree.value (Rtree.mRefinements rt) treev = Some tv ∧
    Rtree.transform_tvals rt (r (Rtree.getEnclosure tv)) = Some tvals ∧
    tree.expand (Rtree.mRefinements rt) treev tvals = Some (Rtree.mRefinements rt') ∧
    graph.value (Rtree.mMappings rt) c0 = None ∧
    graph.value (Rtree.mMappings rt) c1 = None ∧
    c0 ≠ c1 ∧
    base mid = (Rtree.mConstraints rt, Rtree.mDynamics rt, Rtree.mEffort rt,
                Rtree.mRefinements rt',
                <[c1 := treev ++ [true]]>
                  (<[c0 := treev ++ [false]]> (graph.vertexMap (Rtree.mMappings rt)))) ∧
    Rtree.mConstraints rt' = Rtree.mConstraints rt ∧
    Rtree.mDynamics rt' = Rtree.mDynamics rt ∧
    Rtree.mEffort rt' = Rtree.mEffort rt ∧
    graph.vertexMap (Rtree.mMappings rt')
    = delete v (<[c1 := treev ++ [true]]>
                  (<[c0 := treev ++ [false]]> (graph.vertexMap (Rtree.mMappings rt)))) ∧
    (∀ a b, (a, b) ∈ edgesOf rt' →
            a ≠ v ∧ b ≠ v ∧
            ((a, b) ∈ edgesOf rt ∨
             ((a ∈ [c0; c1] ∨ b ∈ [c0; c1]) ∧ possiblyReachable mid a b))) ∧
    (∀ a b, (a, b) ∈ edgesOf rt → a ≠ v → b ≠ v → (a, b) ∈ edgesOf rt').
Proof.
  intros (treev & tv & tvals & t' & rt3 & Hv & Htv & Htvals & Hex & Hloop & ->)%refine_unfold.
  cbv zeta in Hloop.
  set (vm := graph.vertexMap (Rtree.mMappings rt)) in *.
  set (c0 := fresh (dom vm)) in *.
  set (vm0 := <[c0 := treev ++ [false]]> vm) in *.
  set (c1 := fresh (dom vm0)) in *.
  set (mid := Rtree.withMappings _ _) in Hloop.
  apply link_children_edges in Hloop as [Hb He].
  assert (Hc0 : vm !! c0 = None) by apply not_elem_of_dom, is_fresh.
  assert (Hc1 : vm0 !! c1 = None) by apply not_elem_of_dom, is_fresh.
  unfold base in Hb. injection Hb as Hcs Hdyn Heff Ht Hvm.
  cbn [Rtree.mConstraints Rtree.mDynamics Rtree.mEffort Rtree.mRefinements
       Rtree.withMappings Rtree.withRefinements Rtree.mMappings graph.vertexMap mid]
    in Hcs, Hdyn, Heff, Ht, Hvm.
  assert (Hedges : ∀ a b,
             (a, b) ∈ edgesOf (Rtree.withMappings rt3
                                 (graph.removeVertex (Rtree.mMappings rt3) v)) ↔
             a ≠ v ∧ b ≠ v ∧ (a, b) ∈ edgesOf rt3).
  { intros a b. unfold edgesOf at 1, Rtree.withMappings. cbn [Rtree.mMappings].
    by rewrite elem_of_removeVertex. }
  exists treev, tv, tvals, c0, c1, mid.
  split; [done|]. split; [done|]. split; [done|].
  split; [cbn [Rtree.mRefinements Rtree.withMappings]; by rewrite Ht|].
  split; [done|]. split.
  { unfold graph.value. fold vm. unfold vm0 in Hc1.
    apply lookup_insert_None in Hc1. tauto. }
  split.
  { intros Heq. unfold vm0 in Hc1. rewrite Heq, lookup_insert_eq in Hc1. done. }
  split.
  { unfold base, mid.
    cbn [Rtree.mConstraints Rtree.mDynamics Rtree.mEffort Rtree.mRefinements
         Rtree.withMappings Rtree.withRefinements Rtree.mMappings graph.vertexMap].
    by rewrite Ht. }
  split; [done|]. split; [done|]. split; [done|].
  split.
  { unfold Rtree.withMappings, graph.removeVertex.
    cbn [Rtree.mMappings graph.vertexMap]. by rewrite Hvm. }
  split.
  - intros a b (Ha & Hb' & Hin)%Hedges. split; [done|]. split; [done|].
    apply He in Hin as [?|(c & Hc & [Hadd|Hadd])]; [by left|right..].
    + destruct Hadd as (pre & p' & _ & _ & [= -> ->] & Hreach). split; [by right|done].
    + destruct Hadd as (post & s' & _ & _ & [= -> ->] & Hreach). split; [by left|done].
  - intros a b Hin Ha Hb'. apply Hedges. split; [done|]. split; [done|].
    apply He. by left.
Qed.

Lemma elem_of_postimage rt a b : b ∈ Rtree.postimage rt a ↔ (a, b) ∈ edgesOf rt.
Proof.
  unfold Rtree.postimage, graph.outEdges, graph.target, edgesOf.
  rewrite list_elem_of_fmap. split.
  - intros ([a' b'] & -> & [Ha Hin]%list_elem_of_filter). simpl in Ha. by subst.
  - intros Hin. exists (a, b). split; [done|]. by apply list_elem_of_filter.
Qed.

Lemma elem_of_preimage rt a b : a ∈ Rtree.preimage rt b ↔ (a, b) ∈ edgesOf rt.
Proof.
  unfold Rtree.preimage, graph.inEdges, graph.source, edgesOf.
  rewrite list_elem_of_fmap. split.
  - intros ([a' b'] & -> & [Hb Hin]%list_elem_of_filter). simpl in Hb. by subst.
  - intros Hin. exists (a, b). split; [done|]. by apply list_elem_of_filter.
Qed.

Lemma refine_value_dead rt v r rt' :
  Rtree.refine rt v r = Some rt' → Rtree.nodeValue rt' v = None.
Proof.
  intros (treev & tv & tvals & c0 & c1 & mid & _ & _ & _ & _ & _ & _ & _ & _ &
          _ & _ & _ & Hvm & _)%refine_shape.
  unfold Rtree.nodeValue, graph.value. by rewrite Hvm, lookup_delete_eq.
Qed.

Lemma refine_value_kept rt v r rt' a x :
  Rtree.refine rt v r = Some rt' → a ≠ v →
  Rtree.nodeValue rt a = Some x → Rtree.nodeValue rt' a = Some x.
Proof.
  intros (treev & tv & tvals & c0 & c1 & mid & Hv & _ & _ & Hex & Hc0 & Hc1 & _ & _ &
          _ & _ & _ & Hvm & _)%refine_shape Ha Hx.
  unfold Rtree.nodeValue, graph.value in *. rewrite Hvm.
  rewrite lookup_delete_ne by done.
  assert (a ≠ c0 ∧ a ≠ c1) as [Hn0 Hn1].
  { split; intros ->; [rewrite Hc0 in Hx|rewrite Hc1 in Hx]; done. }
  rewrite !lookup_insert_ne by done.
  destruct (graph.vertexMap (Rtree.mMappings rt) !! a) as [ta|]; [|done].
  simpl in *. by eapply expand_value_kept.
Qed.

(** After [refine( v, r )] the handle [v] is dead: it has no node value, its
    pre- and postimage are empty, and it is in the pre- and postimage of no
    vertex. *)
Theorem refine_removes_handle rt v r rt' :
  Rtree.refine rt v r = Some rt' →
  Rtree.nodeValue rt' v = None ∧
  Rtree.preimage rt' v = [] ∧
  Rtree.postimage rt' v = [] ∧
  ∀ a, (v ∉ Rtree.preimage rt' a) ∧ (v ∉ Rtree.postimage rt' a).
Proof.
  intros Href. split; [by eapply refine_value_dead|]. revert Href.
  intros (treev & tv & tvals & c0 & c1 & mid & _ & _ & _ & _ & _ & _ & _ & _ &
          _ & _ & _ & Hvm & Hnew & _)%refine_shape.
  split.
  { apply elem_of_nil_inv. intros a Ha%elem_of_preimage.
    apply Hnew in Ha as (_ & ? & _). done. }
  split.
  { apply elem_of_nil_inv. intros a Ha%elem_of_postimage.
    apply Hnew in Ha as (? & _). done. }
  intros a. split.
  - intros Ha%elem_of_preimage. apply Hnew in Ha as (? & _). done.
  - intros Ha%elem_of_postimage. apply Hnew in Ha as (_ & ? & _). done.
Qed.

(** [refine( v, r )] leaves every other live vertex as it was: its node
    value is the same, and so are the edges between two such vertices. *)
Theorem refine_keeps_others rt v r rt' :
  Rtree.refine rt v r = Some rt' →
  (∀ a x, a ≠ v → Rtree.nodeValue rt a = Some x → Rtree.nodeValue rt' a = Some x) ∧
  (∀ a b, a ≠ v → b ≠ v →
          is_Some (Rtree.nodeValue rt a) → is_Some (Rtree.nodeValue rt b) →
          (b ∈ Rtree.postimage rt' a ↔ b ∈ Rtree.postimage rt a)).
Proof.
  intros Href. split; [intros a x Ha Hx; by eapply refine_value_kept|]. revert Href.
  intros (treev & tv & tvals & c0 & c1 & mid & Hv & _ & _ & Hex & Hc0 & Hc1 & _ & _ &
          _ & _ & _ & Hvm & Hnew & Hold)%refine_shape.
  assert (Hlive : ∀ a, is_Some (Rtree.nodeValue rt a) → a ∉ [c0; c1]).
  { intros a [x Hx] Hin. unfold Rtree.nodeValue in Hx.
    destruct (graph.value (Rtree.mMappings rt) a) eqn:Ha; [|done].
    apply elem_of_cons in Hin as [-> | ->%list_elem_of_singleton]; congruence. }
  intros a b Ha Hb Hla Hlb. rewrite !elem_of_postimage. split.
  - intros (_ & _ & [?|[[Hin|Hin] _]])%Hnew; [done|exfalso..].
    + by apply (Hlive a).
    + by apply (Hlive b).
  - intros Hin. by apply Hold.
Qed.

Lemma possiblyReachable_live rt a b :
  possiblyReachable rt a b →
  is_Some (graph.value (Rtree.mMappings rt) a) ∧
  is_Some (graph.value (Rtree.mMappings rt) b).
Proof.
  intros (k & Hk & _). unfold Rtree.isReachable, Rtree.nodeValue in Hk.
  destruct (graph.value (Rtree.mMappings rt) a); [|done].
  simpl in Hk. destruct (tree.value _ _); [|done]. simpl in Hk.
  destruct (graph.value (Rtree.mMappings rt) b); [|done]. done.
Qed.

(** The constructor returns, and what it returns is consistent and
    edge-sound: one tree node, holding the initial box with the verdict of
    the constraint check, and one vertex for it. *)
Theorem new_invariants (initial : Enclosure) (cs : ConstraintSet)
        (dyn : VectorFunction) (effort : Effort) :
  ∃ rt v0,
    Rtree.new initial cs dyn effort = Some rt ∧
    consistent rt ∧ edgeSound rt ∧
    tree.size (Rtree.tree rt) = 1 ∧
    Rtree.leaves_all rt = Some [v0] ∧
    Rtree.nodeValue rt v0
    = Some (Rtree.MkTreeValue initial (check (overlaps cs initial) effort)).
Proof.
  unfold Rtree.new, graph.addVertex. cbn [graph.empty graph.vertexMap graph.edgeList].
  set (v0 := fresh (dom (∅ : gmap graph.VertexT tree.NodeT))).
  set (tv := Rtree.MkTreeValue initial (check (overlaps cs initial) effort)).
  set (g := graph.MkGraph (<[v0 := tree.root]> ∅) []).
  set (rt := Rtree.MkRefinementTree cs dyn effort (tree.Leaf tv) g).
  assert (Hval : ∀ es, Rtree.nodeValue
                         (Rtree.withMappings rt (graph.MkGraph (<[v0 := tree.root]> ∅) es)) v0
                       = Some tv).
  { intros es. unfold Rtree.nodeValue, graph.value. simpl. by rewrite lookup_insert_eq. }
  assert (Hreach : ∀ es, Rtree.isReachable
                           (Rtree.withMappings rt (graph.MkGraph (<[v0 := tree.root]> ∅) es))
                           v0 v0
                         = Some (knot (is_empty (intersection (box_image initial dyn) initial)))).
  { intros es. unfold Rtree.isReachable. rewrite Hval. done. }
  assert (Hinv : ∀ es,
             (∀ a b, (a, b) ∈ es → a = v0 ∧ b = v0 ∧
                     possibly (knot (is_empty (intersection (box_image initial dyn) initial)))
                     = true) →
             let rt' := Rtree.withMappings rt (graph.MkGraph (<[v0 := tree.root]> ∅) es) in
             consistent rt' ∧ edgeSound rt' ∧ tree.size (Rtree.tree rt') = 1 ∧
             Rtree.leaves_all rt' = Some [v0] ∧ Rtree.nodeValue rt' v0 = Some tv).
  { intros es Hes rt'. split; [|split; [|split; [done|split; [|apply Hval]]]].
    - unfold consistent, graph.value. simpl. split; [|split; [|split]].
      + intros v treev [[_ <-]|[_ ?]]%lookup_insert_Some; [by exists tv|done].
      + intros treev x Hleaf. exists v0. destruct treev; [|done].
        by rewrite lookup_insert_eq.
      + intros v w treev [[<- _]|[_ ?]]%lookup_insert_Some; [|done].
        intros [[<- _]|[_ ?]]%lookup_insert_Some; done.
      + intros a b (-> & -> & _)%Hes. by rewrite lookup_insert_eq.
    - intros a b (-> & -> & Hp)%Hes. eexists. split; [apply Hreach|done].
    - unfold Rtree.leaves_all, Rtree.leaves_tree. simpl.
      destruct (findVertex_is_Some (graph.MkGraph (<[v0 := tree.root]> ∅) es) v0 tree.root)
        as [w Hw]; [unfold graph.value; simpl; by rewrite lookup_insert_eq|].
      rewrite Hw. simpl. apply findVertex_value in Hw. unfold graph.value in Hw.
      simpl in Hw. apply lookup_insert_Some in Hw as [[<- _]|[_ ?]]; done. }
  change (Rtree.isReachable rt v0 v0) with
    (Rtree.isReachable (Rtree.withMappings rt (graph.MkGraph (<[v0 := tree.root]> ∅) [])) v0 v0).
  rewrite Hreach. cbn [mbind option_bind].
  destruct (possibly _) eqn:Hp.
  - eexists _, v0. split; [done|].
    unfold graph.addEdge. cbn [graph.edgeList g]. rewrite decide_False by apply not_elem_of_nil.
    apply (Hinv [(v0, v0)]).
    intros a b [= -> ->]%list_elem_of_singleton. done.
  - eexists _, v0. split; [done|]. apply (Hinv []).
    intros a b []%elem_of_nil.
Qed.

(** [refine] keeps the correspondence between leaves and vertices. *)
Theorem refine_consistent rt v r rt' :
  consistent rt → Rtree.refine rt v r = Some rt' → consistent rt'.
Proof.
  intros (Hleafs & Hverts & Hinj & Hlive)
         (treev & tv & tvals & c0 & c1 & mid & Hv & _ & _ & Hex & Hc0 & Hc1 & Hc01 & Hmid &
          _ & _ & _ & Hvm & Hnew & _)%refine_shape.
  unfold graph.value in *.
  set (vm := graph.vertexMap (Rtree.mMappings rt)) in *.
  destruct (Hleafs v treev Hv) as [x Hx].
  destruct (expand_subtree _ _ _ _ Hex) as (x' & _ & Hbranch).
  assert (Hchild : ∀ b : bool, tree.subtree (Rtree.mRefinements rt') (treev ++ [b])
                               = Some (tree.Leaf (if b then tvals.2 else tvals.1))).
  { intros b. rewrite subtree_app, Hbranch. by destruct b. }
  assert (Hnochild : ∀ (b : bool) w, vm !! w ≠ Some (treev ++ [b])).
  { intros b w Hw. destruct (Hleafs w _ Hw) as [y Hy].
    rewrite subtree_app, Hx in Hy. done. }
  assert (Hlook : ∀ w tw,
             graph.vertexMap (Rtree.mMappings rt') !! w = Some tw ↔
             w ≠ v ∧ ((w = c1 ∧ tw = treev ++ [true]) ∨
                      (w = c0 ∧ tw = treev ++ [false]) ∨
                      (w ≠ c0 ∧ w ≠ c1 ∧ vm !! w = Some tw))).
  { intros w tw. rewrite Hvm, lookup_delete_Some, !lookup_insert_Some.
    intuition (subst; auto). }
  split; [|split; [|split]].
  - intros w tw [Hw [[-> ->]|[[-> ->]|(_ & _ & Hold)]]]%Hlook.
    + eexists. apply (Hchild true).
    + eexists. apply (Hchild false).
    + destruct (Hleafs w tw Hold) as [y Hy]. exists y.
      eapply expand_other_leaf; [done..|]. intros ->. apply Hw. by eapply Hinj.
  - intros m y Hm.
    destruct (expand_leaf_inv _ _ _ _ _ _ Hex Hm) as [[Hne Hold]|[[-> _]|[-> _]]].
    + destruct (Hverts m y Hold) as [w Hw]. exists w. apply Hlook.
      split; [intros ->; congruence|]. right; right.
      split; [intros ->; congruence|]. split; [intros ->; congruence|done].
    + exists c0. apply Hlook. split; [intros ->; congruence|]. right; left. done.
    + exists c1. apply Hlook. split; [intros ->; congruence|]. left. done.
  - intros w1 w2 tw [_ H1]%Hlook [_ H2]%Hlook.
    destruct H1 as [[-> ->]|[[-> ->]|(? & ? & H1)]],
             H2 as [[-> E2]|[[-> E2]|(? & ? & H2)]];
      try done;
      try (apply app_inv_head in E2; congruence);
      try (subst tw; exfalso; by eapply (Hnochild true));
      try (subst tw; exfalso; by eapply (Hnochild false));
      try (exfalso; by eapply (Hnochild true));
      try (exfalso; by eapply (Hnochild false)).
    by eapply Hinj.
  - assert (Hkeep : ∀ a, a ≠ v → is_Some (graph.vertexMap (Rtree.mMappings mid) !! a) →
                         is_Some (graph.vertexMap (Rtree.mMappings rt') !! a)).
    { intros a Ha. unfold base in Hmid. injection Hmid as _ _ _ _ ->.
      by rewrite Hvm, lookup_delete_ne. }
    assert (Hup : ∀ a, is_Some (vm !! a) →
                       is_Some (graph.vertexMap (Rtree.mMappings mid) !! a)).
    { intros a [ta Hta]. unfold base in Hmid. injection Hmid as _ _ _ _ ->.
      rewrite !lookup_insert_is_Some. destruct (decide (c1 = a)); [by left|right].
      split; [done|]. destruct (decide (c0 = a)); [by left|right]. done. }
    intros a b (Ha & Hb & [Hold|[_ Hreach]])%Hnew.
    + destruct (Hlive a b Hold). split; apply Hkeep; auto.
    + destruct (possiblyReachable_live _ _ _ Hreach). split; by apply Hkeep.
Qed.

(** [refine] keeps the edges sound: after it, every edge still joins a
    source whose image possibly meets the target. *)
Theorem refine_edgeSound rt v r rt' :
  edgeSound rt → Rtree.refine rt v r = Some rt' → edgeSound rt'.
Proof.
  intros Hsound Href.
  pose proof (λ a x, refine_value_kept rt v r rt' a x Href) as Hkeep.
  destruct (refine_shape _ _ _ _ Href)
    as (treev & tv & tvals & c0 & c1 & mid & _ & _ & _ & _ & _ & _ & _ & Hmid &
        Hcs & Hdyn & Heff & Hvm & Hnew & _).
  assert (Hmidval : ∀ a, a ≠ v → Rtree.nodeValue rt' a = Rtree.nodeValue mid a).
  { intros a Ha. unfold base in Hmid. injection Hmid as _ _ _ Ht Hm.
    unfold Rtree.nodeValue, graph.value. by rewrite Hvm, Hm, Ht, lookup_delete_ne. }
  intros a b (Ha & Hb & [Hold|[_ Hreach]])%Hnew.
  - destruct (Hsound a b Hold) as (k & Hk & Hp). exists k. split; [|done].
    unfold Rtree.isReachable in *.
    destruct (Rtree.nodeValue rt a) as [xa|] eqn:Hxa; [|done]. simpl in Hk.
    destruct (Rtree.nodeValue rt b) as [xb|] eqn:Hxb; [|done]. simpl in Hk.
    rewrite (Hkeep a xa Ha Hxa), (Hkeep b xb Hb Hxb). simpl. by rewrite Hdyn.
  - destruct Hreach as (k & Hk & Hp). exists k. split; [|done].
    unfold Rtree.isReachable in *. rewrite !Hmidval by done.
    unfold base in Hmid. injection Hmid as _ Hd _ _ _. by rewrite Hdyn, <- Hd.
Qed.

(** Each [refine] adds two nodes to the tree and one vertex to the graph. *)
Theorem refine_growth rt v r rt' :
  Rtree.refine rt v r = Some rt' →
  tree.size (Rtree.tree rt') = tree.size (Rtree.tree rt) + 2 ∧
  size (graph.vertexMap (Rtree.leafMapping rt'))
  = size (graph.vertexMap (Rtree.leafMapping rt)) + 1.
Proof.
  intros (treev & tv & tvals & c0 & c1 & mid & Hv & _ & _ & Hex & Hc0 & Hc1 & Hc01 & _ &
          _ & _ & _ & Hvm & _)%refine_shape.
  unfold Rtree.tree, Rtree.leafMapping, graph.value in *.
  split; [by eapply expand_size|].
  rewrite Hvm.
  set (vm := graph.vertexMap (Rtree.mMappings rt)) in *.
  assert (<[c1 := treev ++ [true]]> (<[c0 := treev ++ [false]]> vm) !! v = Some treev) as Hin.
  { rewrite !lookup_insert_ne by congruence. done. }
  rewrite map_size_delete, Hin.
  rewrite map_size_insert_None by (rewrite lookup_insert_ne; done).
  rewrite map_size_insert_None by done.
  simpl. lia.
Qed.

(** On a consistent tree [refine] returns for a live vertex exactly when the
    strategy yields at most two boxes; on a dead handle it fails. *)
Theorem refine_returns_iff rt v r :
  consistent rt →
  (∀ tv, Rtree.nodeValue rt v = Some tv →
         (is_Some (Rtree.refine rt v r) ↔ length (r (Rtree.getEnclosure tv)) ≤ 2)) ∧
  (Rtree.nodeValue rt v = None → Rtree.refine rt v r = None).
Proof.
  intros (Hleafs & Hverts & Hinj & Hlive). split.
  - intros tv Htv. unfold Rtree.nodeValue in Htv.
    destruct (graph.value (Rtree.mMappings rt) v) as [treev|] eqn:Hv; [|done].
    simpl in Htv. split.
    + intros [rt' Href].
      destruct (refine_shape _ _ _ _ Href)
        as (treev' & tv' & tvals & c0 & c1 & mid & Hv' & Htv' & Htvals & _).
      assert (treev' = treev) as -> by congruence.
      assert (tv' = tv) as -> by congruence.
      unfold Rtree.transform_tvals in Htvals.
      destruct (r (Rtree.getEnclosure tv)) as [|e0 [|e1 [|e2 l]]]; simpl; [lia..|done].
    + intros Hlen. destruct (Hleafs v treev Hv) as [x Hx].
      assert (x = tv) as ->.
      { unfold tree.value in Htv. rewrite Hx in Htv. simpl in Htv. congruence. }
      eapply refine_returns; [done..|].
      intros a b [[ta Ha] [tb Hb]]%Hlive.
      destruct (Hleafs a ta Ha) as [xa Hxa], (Hleafs b tb Hb) as [xb Hxb].
      split; [by exists ta, xa|by exists tb, xb].
  - intros Hnone. destruct (Rtree.refine rt v r) as [rt'|] eqn:Href; [|done].
    destruct (refine_shape _ _ _ _ Href)
      as (treev' & tv' & tvals & c0 & c1 & mid & Hv' & Htv' & _).
    unfold Rtree.nodeValue in Hnone. rewrite Hv' in Hnone. simpl in Hnone. congruence.
Qed.

(** On a consistent tree [leaves()] lists the live vertices, each once. *)
Theorem leaves_all_vertices rt :
  consistent rt →
  ∃ ls, Rtree.leaves_all rt = Some ls ∧ NoDup ls ∧
        ∀ v, v ∈ ls ↔ is_Some (graph.value (Rtree.leafMapping rt) v).
Proof.
  intros (Hleafs & Hverts & Hinj & _). unfold Rtree.leaves_all, Rtree.leaves_tree.
  simpl. unfold Rtree.leafMapping.
  set (g := Rtree.mMappings rt) in *. set (t := Rtree.mRefinements rt) in *.
  assert (Hgen : ∀ sub to,
             tree.subtree t to = Some sub →
             ∃ ls, Rtree.leaves_sub g sub to = Some ls ∧ NoDup ls ∧
                   ∀ v, v ∈ ls ↔ ∃ p x, graph.value g v = Some (to ++ p) ∧
                                        tree.subtree sub p = Some (tree.Leaf x)).
  { induction sub as [x|x c0 IH0 c1 IH1]; intros to Hto; simpl.
    - destruct (Hverts to x Hto) as [w Hw].
      destruct (findVertex_is_Some g w to Hw) as [iv Hiv]. rewrite Hiv. simpl.
      exists [iv]. split; [done|]. split; [apply NoDup_singleton|].
      pose proof (findVertex_value _ _ _ Hiv) as Hval.
      intros v. rewrite list_elem_of_singleton. split.
      + intros ->. exists [], x. by rewrite app_nil_r.
      + intros (p & y & Hv & Hp). destruct p; [|done].
        rewrite app_nil_r in Hv. by eapply Hinj.
    - destruct (IH0 (to ++ [false])) as (l0 & -> & Hnd0 & Hin0).
      { by rewrite subtree_app, Hto. }
      destruct (IH1 (to ++ [true])) as (l1 & -> & Hnd1 & Hin1).
      { by rewrite subtree_app, Hto. }
      simpl. exists (l0 ++ l1). split; [done|]. split.
      + apply NoDup_app. split; [done|]. split; [|done].
        intros w (p0 & ? & Hv0 & _)%Hin0 (p1 & ? & Hv1 & _)%Hin1.
        rewrite Hv0 in Hv1. rewrite <- !app_assoc in Hv1.
        injection Hv1 as Heq. apply app_inv_head in Heq. done.
      + intros w. rewrite elem_of_app, Hin0, Hin1. split.
        * intros [(p & y & Hv & Hp)|(p & y & Hv & Hp)].
          -- exists (false :: p), y. by rewrite <- app_assoc in Hv.
          -- exists (true :: p), y. by rewrite <- app_assoc in Hv.
        * intros (p & y & Hv & Hp). destruct p as [|[] p]; [done|right|left];
            exists p, y; by rewrite <- app_assoc. }
  destruct (Hgen t tree.root eq_refl) as (ls & Hls & Hnd & Hin).
  exists ls. split; [done|]. split; [done|].
  intros v. rewrite Hin. split.
  - intros (p & x & Hv & _). by eexists.
  - intros [tv Hv]. destruct (Hleafs v tv Hv) as [x Hx]. by exists tv, x.
Qed.

(** On a consistent tree the leaves below a live vertex are the vertex
    itself. *)
Theorem leaves_of_leaf rt v :
  consistent rt →
  is_Some (graph.value (Rtree.leafMapping rt) v) →
  Rtree.leaves rt v = Some [v].
Proof.
  intros (Hleafs & _ & Hinj & _) [treev Hv]. unfold Rtree.leaves, Rtree.leaves_tree.
  unfold Rtree.leafMapping in Hv. rewrite Hv. simpl.
  destruct (Hleafs v treev Hv) as [x ->]. simpl.
  destruct (findVertex_is_Some _ _ _ Hv) as [w Hw]. rewrite Hw. simpl.
  apply findVertex_value in Hw. f_equal. f_equal. by eapply Hinj.
Qed.
End consistency.

(** * The image and the leaves *)

Section image_facts.
Context `{Num : Numeric}.
Implicit Types (rt : Rtree.RefinementTree) (v : graph.VertexT).

Lemma imageRecursive_sub_members (g : graph.AdjacencyDiGraph tree.NodeT) from sub to ns :
  Rtree.imageRecursive_sub g from sub to = Some ns →
  ∀ v, v ∈ ns ↔
       ∃ p x, tree.subtree sub p = Some (tree.Leaf x) ∧
              graph.findVertex g (to ++ p) = Some v ∧
              ∀ q s, q `prefix_of` p → tree.subtree sub q = Some s →
                     definitely (is_empty (intersection from
                                             (Rtree.getEnclosure (tree.label s)))) = false.
Proof.
  revert to ns. induction sub as [x|x c0 IH0 c1 IH1]; intros to ns; simpl.
  - destruct (definitely _) eqn:Hd.
    { intros [= <-] v. split; [by intros ?%elem_of_nil|].
      intros (p & y & _ & _ & Hall).
      pose proof (Hall [] (tree.Leaf x) (prefix_nil _) eq_refl) as Hc.
      simpl in Hc. congruence. }
    destruct (graph.findVertex g to) as [iv|] eqn:Hf; [|done].
    intros [= <-] v. rewrite list_elem_of_singleton. split.
    + intros ->. exists [], x. rewrite app_nil_r. split; [done|]. split; [done|].
      intros q s ->%prefix_nil_inv [= <-]. simpl. done.
    + intros (p & y & Hp & Hv & _). destruct p; [|done].
      rewrite app_nil_r in Hv. congruence.
  - destruct (definitely _) eqn:Hd.
    { intros [= <-] v. split; [by intros ?%elem_of_nil|].
      intros (p & y & _ & _ & Hall).
      pose proof (Hall [] (tree.Branch x c0 c1) (prefix_nil _) eq_refl) as Hc.
      simpl in Hc. congruence. }
    destruct (Rtree.imageRecursive_sub g from c0 _) as [rns0|] eqn:H0; [|done].
    destruct (Rtree.imageRecursive_sub g from c1 _) as [rns1|] eqn:H1; [|done].
    intros [= <-] v. rewrite elem_of_app, (IH0 _ _ H0), (IH1 _ _ H1). split.
    + intros [(p & y & Hp & Hv & Hall)|(p & y & Hp & Hv & Hall)].
      * exists (false :: p), y. rewrite <- app_assoc in Hv. split; [done|]. split; [done|].
        intros q s Hq Hs. destruct q as [|b q]; [by simplify_eq/=|].
        pose proof (prefix_cons_inv_1 _ _ _ _ Hq) as ->.
        apply prefix_cons_inv_2 in Hq. by apply (Hall q).
      * exists (true :: p), y. rewrite <- app_assoc in Hv. split; [done|]. split; [done|].
        intros q s Hq Hs. destruct q as [|b q]; [by simplify_eq/=|].
        pose proof (prefix_cons_inv_1 _ _ _ _ Hq) as ->.
        apply prefix_cons_inv_2 in Hq. by apply (Hall q).
    + intros (p & y & Hp & Hv & Hall). destruct p as [|[] p]; [done|right|left];
        exists p, y; rewrite <- app_assoc; (split; [done|]); (split; [done|]);
        intros q s Hq Hs.
      * apply (Hall (true :: q)); [by apply prefix_cons|done].
      * apply (Hall (false :: q)); [by apply prefix_cons|done].
Qed.

(** [image( from )] returns the vertex of a leaf exactly when neither the
    leaf nor any of its ancestors has a box that is definitely disjoint from
    [from]. *)
Theorem image_members rt from ns :
  Rtree.image rt from = Some ns →
  ∀ v, v ∈ ns ↔
       ∃ p x, tree.subtree (Rtree.mRefinements rt) p = Some (tree.Leaf x) ∧
              graph.findVertex (Rtree.mMappings rt) p = Some v ∧
              notPruned rt from p.
Proof.
  unfold Rtree.image, Rtree.imageRecursive. simpl. intros Himg v.
  rewrite (imageRecursive_sub_members _ _ _ _ _ Himg). done.
Qed.

Lemma imageRecursive_sub_sublist (g : graph.AdjacencyDiGraph tree.NodeT) from sub to ns ls :
  Rtree.imageRecursive_sub g from sub to = Some ns →
  Rtree.leaves_sub g sub to = Some ls →
  sublist ns ls.
Proof.
  revert to ns ls. induction sub as [x|x c0 IH0 c1 IH1]; intros to ns ls; simpl.
  - destruct (definitely _); [intros [= <-] _; apply sublist_nil_l|].
    destruct (graph.findVertex g to); [|done]. by intros [= <-] [= <-].
  - destruct (definitely _); [intros [= <-] _; apply sublist_nil_l|].
    destruct (Rtree.imageRecursive_sub g from c0 _) as [rns0|] eqn:H0; [|done].
    destruct (Rtree.imageRecursive_sub g from c1 _) as [rns1|] eqn:H1; [|done].
    destruct (Rtree.leaves_sub g c0 _) as [rls0|] eqn:L0; [|done].
    destruct (Rtree.leaves_sub g c1 _) as [rls1|] eqn:L1; [|done].
    intros [= <-] [= <-]. apply sublist_app; [by eapply IH0|by eapply IH1].
Qed.

Lemma imageRecursive_sub_all (g : graph.AdjacencyDiGraph tree.NodeT) from sub to :
  (∀ q s, tree.subtree sub q = Some s →
          definitely (is_empty (intersection from (Rtree.getEnclosure (tree.label s))))
          = false) →
  Rtree.imageRecursive_sub g from sub to = Rtree.leaves_sub g sub to.
Proof.
  revert to. induction sub as [x|x c0 IH0 c1 IH1]; intros to Hall; simpl.
  - pose proof (Hall [] (tree.Leaf x) eq_refl) as Hc. simpl in Hc. by rewrite Hc.
  - pose proof (Hall [] (tree.Branch x c0 c1) eq_refl) as Hc. simpl in Hc. rewrite Hc.
    rewrite IH0, IH1; [done|..].
    + intros q s Hq. by apply (Hall (true :: q)).
    + intros q s Hq. by apply (Hall (false :: q)).
Qed.

(** [image( from )] is a subsequence of [leaves()], in the same order; when
    no box of the tree is definitely disjoint from [from] the two agree. *)
Theorem image_sublist_leaves rt from :
  (∀ ns ls, Rtree.image rt from = Some ns → Rtree.leaves_all rt = Some ls →
            sublist ns ls) ∧
  ((∀ q s, tree.subtree (Rtree.mRefinements rt) q = Some s →
           definitely (is_empty (intersection from (Rtree.getEnclosure (tree.label s))))
           = false) →
   Rtree.image rt from = Rtree.leaves_all rt).
Proof.
  unfold Rtree.image, Rtree.imageRecursive, Rtree.leaves_all, Rtree.leaves_tree. simpl.
  split.
  - intros ns ls. apply imageRecursive_sub_sublist.
  - apply imageRecursive_sub_all.
Qed.
End image_facts.

(** * The first search, spuriousness check and driver *)

Section first_driver.
Context `{Num : Numeric}.
Implicit Types (rt : Rtree.RefinementTree) (n v : graph.VertexT)
         (img path cex image counter : list graph.VertexT).

Lemma search_nil fuel rt path :
  RtreeCegar.findCounterexample (S fuel) rt [] path = Some [].
Proof. reflexivity. Qed.

Lemma search_cons fuel rt n img path :
  RtreeCegar.findCounterexample (S fuel) rt (n :: img) path =
  tv ← Rtree.nodeValue rt n;
  if negb (definitely (Rtree.isSafe tv)) then Some (path ++ [n])
  else
    match RtreeCegar.findLoop rt n path with
    | None => None
    | Some true => RtreeCegar.findCounterexample (S fuel) rt img path
    | Some false =>
        cex ← RtreeCegar.findCounterexample fuel rt (Rtree.postimage rt n) (path ++ [n]);
        match cex with
        | _ :: _ => Some cex
        | [] => RtreeCegar.findCounterexample (S fuel) rt img path
        end
    end.
Proof. reflexivity. Qed.

Lemma search_ext fuel rt :
  ∀ img path cex,
    RtreeCegar.findCounterexample fuel rt img path = Some cex → cex ≠ [] →
    ∃ n ext, cex = path ++ n :: ext ∧ n ∈ img ∧ searchExt rt path (n :: ext).
Proof.
  induction fuel as [|fuel IHf]; [done|].
  induction img as [|n img IHi]; intros path cex.
  { rewrite search_nil. by intros [= <-]. }
  rewrite search_cons.
  assert (Hrest : RtreeCegar.findCounterexample (S fuel) rt img path = Some cex →
                  cex ≠ [] →
                  ∃ m ext, cex = path ++ m :: ext ∧ m ∈ n :: img ∧
                           searchExt rt path (m :: ext)).
  { intros Hrun Hne. destruct (IHi _ _ Hrun Hne) as (m & ext & -> & Hm & Hext).
    exists m, ext. split; [done|]. split; [by right|done]. }
  destruct (Rtree.nodeValue rt n) as [tv|] eqn:Htv; [|done]. cbn [mbind option_bind].
  destruct (definitely (Rtree.isSafe tv)) eqn:Hsafe; cbn [negb].
  - destruct (RtreeCegar.findLoop rt n path) as [[]|] eqn:Hloop; [done| |done].
    destruct (RtreeCegar.findCounterexample fuel rt (Rtree.postimage rt n) (path ++ [n]))
      as [[|c sub]|] eqn:Hrec; cbn [mbind option_bind]; [done| |done].
    intros [= <-] _.
    destruct (IHf _ _ _ Hrec) as (m & ext & Heq & Hm & Hext); [done|].
    exists n, (m :: ext). rewrite Heq, <- app_assoc. split; [done|].
    split; [by left|]. simpl. exists tv. by repeat split.
  - intros [= <-] _. exists n, []. split; [done|]. split; [by left|].
    simpl. by exists tv.
Qed.

Lemma searchExt_facts rt path ext :
  searchExt rt path ext →
  (∀ i a b, ext !! i = Some a → ext !! S i = Some b → b ∈ Rtree.postimage rt a) ∧
  (∃ nk tv, last ext = Some nk ∧ Rtree.nodeValue rt nk = Some tv ∧
            definitely (Rtree.isSafe tv) = false) ∧
  (∀ i a, ext !! i = Some a → S i < length ext →
          (∃ tv, Rtree.nodeValue rt a = Some tv ∧ definitely (Rtree.isSafe tv) = true) ∧
          RtreeCegar.findLoop rt a (path ++ take i ext) = Some false).
Proof.
  revert path. induction ext as [|n ext IH]; intros path; [done|].
  intros (tv & Htv & Hext). destruct ext as [|m ext].
  - split; [intros [|i] a b ? Hb; done|]. split; [by exists n, tv|].
    intros [|i] a Ha Hlen; simpl in Hlen; lia.
  - destruct Hext as (Hsafe & Hloop & Hm & Hext).
    destruct (IH (path ++ [n]) Hext) as (Hadj & (nk & tvk & Hlast & Hk) & Hsafes).
    split; [|split].
    + intros [|i] a b Ha Hb; [|by apply (Hadj i)].
      injection Ha as <-. injection Hb as <-. done.
    + exists nk, tvk. split; [|done]. by rewrite last_cons, Hlast.
    + intros [|i] a Ha Hlen.
      * injection Ha as <-. split; [by exists tv|].
        simpl. by rewrite app_nil_r.
      * destruct (Hsafes i a Ha) as [Hs Hl]; [simpl in *; lia|]. split; [done|].
        rewrite <- app_assoc in Hl. done.
Qed.

(** A non-empty path returned by the search of refinementTree.hpp starts in
    the image, follows graph edges, ends at a node that is not definitely
    safe and goes only through definitely safe nodes before it, each of which
    passed the loop test against the nodes before it. *)
Theorem search_valid fuel rt img cex :
  RtreeCegar.findCounterexample fuel rt img [] = Some cex →
  cex ≠ [] →
  (∃ n0, head cex = Some n0 ∧ n0 ∈ img) ∧
  (∀ i a b, cex !! i = Some a → cex !! S i = Some b → b ∈ Rtree.postimage rt a) ∧
  (∃ nk tv, last cex = Some nk ∧ Rtree.nodeValue rt nk = Some tv ∧
            definitely (Rtree.isSafe tv) = false) ∧
  (∀ i a, cex !! i = Some a → S i < length cex →
          (∃ tv, Rtree.nodeValue rt a = Some tv ∧ definitely (Rtree.isSafe tv) = true) ∧
          RtreeCegar.findLoop rt a (take i cex) = Some false).
Proof.
  intros Hrun Hne.
  destruct (search_ext _ _ _ _ _ Hrun Hne) as (n & ext & -> & Hn & Hext).
  split; [by exists n|]. by apply (searchExt_facts rt []).
Qed.

Lemma check_nil rt counter effort :
  RtreeCegar.isSpurious rt counter [] effort = Some KTrue.
Proof. by destruct counter. Qed.

Lemma check_cons rt counter n image effort :
  RtreeCegar.isSpurious rt counter (n :: image) effort =
  tv ← Rtree.nodeValue rt n;
  oipost ← RtreeCegar.firstContaining rt
             (evaluate (Rtree.dynamics rt) (centre (Rtree.getEnclosure tv)))
             (Rtree.postimage rt n);
  match oipost with
  | None => Some KTrue
  | Some ipost =>
      doesContinue ←
        match counter with
        | [] => Some KTrue
        | _ :: counter' => RtreeCegar.isSpurious rt counter' [ipost] effort
        end;
      if definitely doesContinue then Some KFalse
      else RtreeCegar.isSpurious rt counter image effort
  end.
Proof. by destruct counter. Qed.

(** The spuriousness check of refinementTree.hpp never reads the nodes of
    the counterexample: two counterexamples of the same length get the same
    answer.  The answer is never indeterminate. *)
Theorem first_isSpurious_length rt counter1 counter2 image effort :
  length counter1 = length counter2 →
  RtreeCegar.isSpurious rt counter1 image effort
  = RtreeCegar.isSpurious rt counter2 image effort ∧
  ∀ k, RtreeCegar.isSpurious rt counter1 image effort = Some k → k = KTrue ∨ k = KFalse.
Proof.
  intros Hlen. split.
  - revert counter2 image Hlen.
    induction counter1 as [|c1 counter1 IH]; intros [|c2 counter2] image Hlen;
      try done.
    injection Hlen as Hlen.
    induction image as [|n image IHimg]; [by rewrite !check_nil|].
    rewrite !check_cons.
    destruct (Rtree.nodeValue rt n) as [tv|]; [|done]. cbn [mbind option_bind].
    destruct (RtreeCegar.firstContaining _ _ _) as [[ipost|]|]; [|done..].
    cbn [mbind option_bind]. rewrite (IH counter2 [ipost] Hlen).
    destruct (RtreeCegar.isSpurious rt counter2 [ipost] effort) as [d|]; [|done].
    cbn [mbind option_bind]. by rewrite IHimg.
  - clear Hlen. induction image as [|n image IHimg]; intros k.
    { rewrite check_nil. intros [= <-]. by left. }
    rewrite check_cons.
    destruct (Rtree.nodeValue rt n) as [tv|]; [|done]. cbn [mbind option_bind].
    destruct (RtreeCegar.firstContaining _ _ _) as [[ipost|]|]; cbn [mbind option_bind];
      [|intros [= <-]; by left|done].
    destruct (match counter1 with [] => _ | _ :: _ => _ end) as [d|];
      cbn [mbind option_bind]; [|done].
    destruct (definitely d); [intros [= <-]; by right|apply IHimg].
Qed.

(** The first driver returns the empty path or a counterexample that the
    search found in the tree of its last iteration, below the node budget,
    and that the check answered with False. *)
Theorem first_cegar_result fuel depth rt image effort strat maxNodes cex :
  RtreeCegar.cegar fuel depth rt image effort strat maxNodes = Some cex →
  cex = [] ∨
  ∃ rt', tree.size (Rtree.tree rt') < maxNodes ∧
         RtreeCegar.findCounterexample depth rt' image [] = Some cex ∧
         RtreeCegar.isSpurious rt' cex image effort = Some KFalse.
Proof.
  revert rt. induction fuel as [|fuel IH]; intros rt; [done|].
  cbn [RtreeCegar.cegar]. case_bool_decide as Hsize; [|intros [= <-]; by left].
  destruct (RtreeCegar.findCounterexample depth rt image []) as [[|c cs]|] eqn:Hfc;
    cbn [mbind option_bind]; [intros [= <-]; by left| |done].
  destruct (RtreeCegar.isSpurious rt (c :: cs) image effort) as [s|] eqn:Hs;
    cbn [mbind option_bind]; [|done].
  destruct (definitely (knot s)) eqn:Hd.
  - intros [= <-]. right. exists rt. split; [done|]. split; [done|]. by destruct s.
  - destruct (forEach _ _ rt) as [rt1|]; cbn [mbind option_bind]; [apply IH|done].
Qed.

(** The first driver makes no progress on a one-node counterexample the
    check does not answer with False: nothing is refined, the next iteration
    is the same, and no iteration bound lets it return. *)
Theorem first_cegar_stuck depth rt image effort strat maxNodes n s :
  tree.size (Rtree.tree rt) < maxNodes →
  RtreeCegar.findCounterexample depth rt image [] = Some [n] →
  RtreeCegar.isSpurious rt [n] image effort = Some s →
  definitely (knot s) = false →
  ∀ fuel, RtreeCegar.cegar fuel depth rt image effort strat maxNodes = None.
Proof.
  intros Hsize Hfc Hs Hd. induction fuel as [|fuel IH]; [done|].
  cbn [RtreeCegar.cegar]. rewrite bool_decide_eq_true_2 by done.
  rewrite Hfc. cbn [mbind option_bind]. rewrite Hs. cbn [mbind option_bind].
  rewrite Hd. simpl. exact IH.
Qed.

(** A search whose image starts with a handle that [refine] has removed
    fails. *)
Lemma search_after_refine fuel rt v r rt' img path :
  Rtree.refine rt v r = Some rt' →
  RtreeCegar.findCounterexample fuel rt' (v :: img) path = None.
Proof.
  intros Href. destruct fuel as [|fuel]; [done|]. rewrite search_cons.
  by rewrite (refine_value_dead _ _ _ _ Href).
Qed.

(** The first driver hands the same image to every iteration.  When its
    counterexample has two nodes, starts at the first node of the image and
    is not answered with False, the iteration refines that node and nothing
    else; when that refinement returns, the loop goes on below the node
    budget with the refined tree and the old image, whose first node is now
    a removed handle.  The next search starts by reading the node value of
    that handle, which has none: the read is undefined, and neither the
    search, at any depth, nor the driver, at any iteration bound, has a
    result. *)
Theorem first_cegar_stale_image depth rt v u image effort strat maxNodes s rt' :
  tree.size (Rtree.tree rt) + 2 < maxNodes →
  RtreeCegar.findCounterexample depth rt (v :: image) [] = Some [v; u] →
  RtreeCegar.isSpurious rt [v; u] (v :: image) effort = Some s →
  definitely (knot s) = false →
  Rtree.refine rt v strat = Some rt' →
  (∀ fuel, RtreeCegar.cegar (S fuel) depth rt (v :: image) effort strat maxNodes
           = RtreeCegar.cegar fuel depth rt' (v :: image) effort strat maxNodes) ∧
  tree.size (Rtree.tree rt') < maxNodes ∧
  Rtree.nodeValue rt' v = None ∧
  (∀ d path, RtreeCegar.findCounterexample d rt' (v :: image) path = None) ∧
  (∀ fuel, RtreeCegar.cegar fuel depth rt (v :: image) effort strat maxNodes = None).
Proof.
  intros Hsize Hfc Hs Hd Href.
  assert (Hstep : ∀ fuel,
             RtreeCegar.cegar (S fuel) depth rt (v :: image) effort strat maxNodes
             = RtreeCegar.cegar fuel depth rt' (v :: image) effort strat maxNodes).
  { intros fuel. cbn [RtreeCegar.cegar]. rewrite bool_decide_eq_true_2 by lia.
    rewrite Hfc. cbn [mbind option_bind]. rewrite Hs. cbn [mbind option_bind].
    rewrite Hd. cbn [length Nat.sub take forEach]. rewrite Href. done. }
  assert (tree.size (Rtree.tree rt') = tree.size (Rtree.tree rt) + 2) as Hgrow.
  { destruct (refine_shape _ _ _ _ Href) as (? & ? & ? & ? & ? & ? & _ & _ & _ & Hex & _).
    by eapply expand_size. }
  assert (Hdead : ∀ d path, RtreeCegar.findCounterexample d rt' (v :: image) path = None).
  { intros d path. by eapply search_after_refine. }
  split; [exact Hstep|]. split; [lia|]. split; [by eapply refine_value_dead|].
  split; [exact Hdead|].
  intros [|fuel]; [done|]. rewrite Hstep. destruct fuel as [|fuel]; [done|].
  cbn [RtreeCegar.cegar]. rewrite bool_decide_eq_true_2 by lia. by rewrite Hdead.
Qed.
End first_driver.

(** * More on cegar.hpp *)

Section cegar_more.
Context `{Api : Cegar.RefinementTreeApi}.
Import Cegar.
Implicit Types (rtree : RT) (n : NodeT).

(** [findContaining] returns the position of the first node of the range
    that has a node value and whose box contains the point according to
    [eval]; the outside sink is never returned, and the end of the range is
    returned exactly when no node qualifies. *)
Theorem findContaining_first rtree (pt : PointT) (nodes : list NodeT)
        (eval : Kleenean → bool) :
  let hit n := match nodeValue rtree n with
               | Some v => eval (contains (getEnclosure v) pt)
               | None => false
               end in
  (∀ i, findContaining rtree pt nodes eval = Some i →
        ∃ n v, nodes !! i = Some n ∧ nodeValue rtree n = Some v ∧
               eval (contains (getEnclosure v) pt) = true ∧
               ∀ j m, j < i → nodes !! j = Some m → hit m = false) ∧
  (findContaining rtree pt nodes eval = None ↔ ∀ n, n ∈ nodes → hit n = false).
Proof.
  intros hit. induction nodes as [|n nodes [IHs IHn]]; cbn [findContaining].
  { split; [done|]. split; [|done]. by intros _ n ?%elem_of_nil. }
  fold (hit n). destruct (hit n) eqn:Hn.
  - split.
    + intros i [= <-]. unfold hit in Hn.
      destruct (nodeValue rtree n) as [v|] eqn:Hv; [|done].
      exists n, v. repeat split; try done. intros j m Hj. lia.
    + split; [done|]. intros Hall. rewrite Hall in Hn; [done|by left].
  - split.
    + intros i Hi. apply fmap_Some in Hi as (i' & Hi' & ->).
      destruct (IHs i' Hi') as (m & v & Hm & Hv & He & Hbefore).
      exists m, v. repeat split; try done.
      intros [|j] m' Hj Hm'; [by simplify_eq/=|]. apply (Hbefore j); [lia|done].
    + rewrite fmap_None, IHn. split.
      * intros Hall m [->|Hm]%elem_of_cons; auto.
      * intros Hall m Hm. apply Hall. by right.
Qed.

(** [isSpurious] never answers indeterminate, so the driver's test
    [definitely( !isSpurious( ... ) )] holds exactly when the answer is
    False. *)
Theorem isSpurious_two_valued rtree counter image effort k :
  isSpurious rtree counter image effort = Some k →
  (k = KTrue ∨ k = KFalse) ∧ (definitely (knot k) = true ↔ k = KFalse).
Proof.
  intros Hk. assert (k = KTrue ∨ k = KFalse) as Hor.
  { unfold isSpurious in Hk. destruct counter as [|n0 counter]; [done|].
    destruct (nodeValue rtree n0) as [v|].
    - destruct (negb _); [injection Hk as <-; by left|]. injection Hk as <-.
      generalize (centre (getEnclosure v)) as p.
      induction counter as [|n counter IH]; intros p; cbn [mapForward]; [by right|].
      destruct (definitely _); [by left|apply IH].
    - destruct (existsb _ image); injection Hk as <-; [by right|by left]. }
  split; [done|]. destruct Hor as [-> | ->]; split; done.
Qed.

(** The comparator is transitive; on concrete nodes it is irreflexive and
    asymmetric, and two concrete nodes are equivalent under it exactly when
    they carry the same identifier. *)
Theorem NodeComparator_order rtree :
  (∀ a b c, NodeComparator rtree a b = true → NodeComparator rtree b c = true →
            NodeComparator rtree a c = true) ∧
  (∀ a, is_Some (nodeValue rtree a) → NodeComparator rtree a a = false) ∧
  (∀ a b, is_Some (nodeValue rtree a) → NodeComparator rtree a b = true →
          NodeComparator rtree b a = false) ∧
  (∀ a b va vb, nodeValue rtree a = Some va → nodeValue rtree b = Some vb →
                (NodeComparator rtree a b = false ∧ NodeComparator rtree b a = false
                 ↔ id va = id vb)).
Proof.
  unfold NodeComparator. split; [|split; [|split]].
  - intros a b c.
    destruct (nodeValue rtree a), (nodeValue rtree b), (nodeValue rtree c); try done.
    rewrite !bool_decide_eq_true. lia.
  - intros a [va ->]. apply bool_decide_eq_false. lia.
  - intros a b [va ->]. destruct (nodeValue rtree b); [|done].
    rewrite bool_decide_eq_true, bool_decide_eq_false. lia.
  - intros a b va vb -> ->. rewrite !bool_decide_eq_false. lia.
Qed.
End cegar_more.

Section driver_more.
Context `{Api : Cegar.RefinementTreeApi}.
Import Cegar.

Variable initialSet : Enclosure.
Variable effort : Effort.
Variable refinement : IRefinement.
Variable locator : list NodeT → list NodeT.
Variable maxNodes depth : nat.

Lemma refineNode_sinks (rtree : RT) (initialImage targets : list NodeT) :
  (∀ n, n ∈ targets → nodeValue rtree n = None) →
  foldl (refineNode initialSet refinement) (rtree, initialImage) targets
  = (rtree, initialImage).
Proof.
  induction targets as [|n targets IH]; intros Hall; [done|].
  cbn [foldl]. unfold refineNode at 2. rewrite (Hall n) by (by left).
  apply IH. intros m Hm. apply Hall. by right.
Qed.

Lemma cegar_loop_no_progress (rtree : RT) (initialImage cex : list NodeT) :
  treeSize rtree < maxNodes →
  findCounterexample depth rtree initialImage [] = Some cex →
  cex ≠ [] →
  ¬ provedUnsafe rtree effort initialImage cex →
  (∀ n, n ∈ locator cex → nodeValue rtree n = None) →
  ∀ fuel,
    cegar_loop initialSet effort refinement locator maxNodes fuel depth rtree initialImage
    = None.
Proof.
  intros Hsize Hfc Hne Hnot Hsinks. induction fuel as [|fuel IH]; [done|].
  rewrite cegar_loop_step, bool_decide_eq_true_2 by done.
  rewrite Hfc. cbn [mbind option_bind]. destruct cex as [|c cex]; [done|].
  destruct (provedUnsafe_test effort rtree initialImage c cex)
    as (s & back & Hs & Hb & Htest).
  rewrite Hs. cbn [mbind option_bind]. rewrite Hb. cbn [mbind option_bind].
  destruct (definitely (knot s) && definitely (knot (isSafe rtree back))) eqn:Ht.
  { exfalso. apply Hnot, Htest. done. }
  rewrite refineNode_sinks by done. exact IH.
Qed.

(** When the locator selects nothing, or only the outside sink, for the first
    counterexample and the driver does not return on it, the iteration
    changes neither the tree nor the initial image: the loop does not use up
    the node budget, and no iteration bound lets the driver return. *)
Theorem cegar_no_progress (rtree : RT) (cex : list NodeT) :
  let initialImage :=
    set_insert_range (NodeComparator rtree) (image rtree initialSet) [] in
  treeSize rtree < maxNodes →
  findCounterexample depth rtree initialImage [] = Some cex →
  cex ≠ [] →
  ¬ provedUnsafe rtree effort initialImage cex →
  (∀ n, n ∈ locator cex → nodeValue rtree n = None) →
  ∀ fuel,
    cegar initialSet effort refinement locator maxNodes fuel depth rtree = None.
Proof.
  intros initialImage Hsize Hfc Hne Hnot Hsinks fuel.
  by apply (cegar_loop_no_progress rtree initialImage cex).
Qed.

(** What the driver returns: a verdict True or Indeterminate comes with the
    empty path; a verdict False comes with a path that starts in the initial
    image of the tree it was found in, follows graph edges, repeats no node,
    ends at a node whose safety flag is False, and was answered False by
    [isSpurious]. *)
Theorem cegar_result (fuel : nat) (rtree : RT) (k : Kleenean) (p : list NodeT) :
  cegar initialSet effort refinement locator maxNodes fuel depth rtree = Some (k, p) →
  (k ≠ KFalse → p = []) ∧
  (k = KFalse →
   ∃ rtree' initialImage' n0 back,
     head p = Some n0 ∧ n0 ∈ initialImage' ∧
     isPath rtree' p ∧ loopFree rtree' p ∧
     last p = Some back ∧ isSafe rtree' back = KFalse ∧
     isSpurious rtree' p initialImage' effort = Some KFalse).
Proof.
  unfold cegar.
  intros (j & rtree' & initialImage' & _ & _ & Hout)%cegar_loop_iff.
  destruct Hout as [[_ [= -> ->]]|[(_ & _ & [= -> ->])|(_ & cex & Hfc & Hne & Hp & [= -> ->])]];
    [done..|].
  split; [done|]. intros _.
  destruct (findCounterexample_ext _ _ _ _ _ Hfc Hne) as (n0 & ext & Hcex & Hn0 & Hext).
  simpl in Hcex. subst cex.
  destruct Hp as (s & back & Hs & Hb & Hds & Hdb).
  exists rtree', initialImage', n0, back.
  split; [done|]. split; [done|]. split; [by eapply validExt_isPath|].
  split; [by apply validExt_loopFree|]. split; [done|].
  split; [by destruct (isSafe rtree' back)|].
  rewrite Hs. f_equal. by destruct s.
Qed.
End driver_more.

(** * The observers on a consistent tree *)

Section observers.
Context `{Num : Numeric}.
Implicit Types (rt : Rtree.RefinementTree) (v : graph.VertexT).

Lemma nodeValue_live rt v :
  consistent rt →
  is_Some (Rtree.nodeValue rt v) ↔ is_Some (graph.value (Rtree.leafMapping rt) v).
Proof.
  intros (Hleafs & _). unfold Rtree.nodeValue, Rtree.leafMapping. split.
  - intros [x Hx]. destruct (graph.value (Rtree.mMappings rt) v); [by eexists|done].
  - intros [treev Hv]. rewrite Hv. simpl. destruct (Hleafs v treev Hv) as [x Hx].
    unfold tree.value. rewrite Hx. by eexists.
Qed.

(** On a consistent tree the observers read through a handle are defined
    exactly on live vertices: [nodeValue] for a live vertex, [nodesEqual] and
    [isReachable] for two live vertices. *)
Theorem observers_defined rt :
  consistent rt →
  (∀ v, is_Some (Rtree.nodeValue rt v) ↔ is_Some (graph.value (Rtree.leafMapping rt) v)) ∧
  (∀ a b, is_Some (Rtree.nodesEqual rt a b) ↔
          is_Some (graph.value (Rtree.leafMapping rt) a) ∧
          is_Some (graph.value (Rtree.leafMapping rt) b)) ∧
  (∀ a b, is_Some (Rtree.isReachable rt a b) ↔
          is_Some (graph.value (Rtree.leafMapping rt) a) ∧
          is_Some (graph.value (Rtree.leafMapping rt) b)).
Proof.
  intros Hc. split; [intros v; by apply nodeValue_live|].
  split; intros a b; rewrite <- !(nodeValue_live rt) by done;
    unfold Rtree.nodesEqual, Rtree.isReachable;
    destruct (Rtree.nodeValue rt a) as [xa|], (Rtree.nodeValue rt b) as [xb|]; simpl;
    split; try (intros [? ?]; done); try (intros [[? ?] [? ?]]; done);
    intros _; (split; by eexists) || by eexists.
Qed.

Lemma imageRecursive_sub_defined rt from :
  consistent rt →
  ∀ sub to,
    tree.subtree (Rtree.mRefinements rt) to = Some sub →
    ∃ ns, Rtree.imageRecursive_sub (Rtree.mMappings rt) from sub to = Some ns ∧
          ∀ v, v ∈ ns → leafVertex rt v.
Proof.
  intros (Hleafs & Hverts & _). induction sub as [x|x c0 IH0 c1 IH1]; intros to Hto; simpl.
  - destruct (definitely _); [exists []; split; [done|]; by intros v ?%elem_of_nil|].
    destruct (Hverts to x Hto) as [w Hw].
    destruct (findVertex_is_Some _ w to Hw) as [iv Hiv]. rewrite Hiv. simpl.
    exists [iv]. split; [done|]. intros v ->%list_elem_of_singleton.
    exists to, x. split; [by apply findVertex_value|done].
  - destruct (definitely _); [exists []; split; [done|]; by intros v ?%elem_of_nil|].
    destruct (IH0 (to ++ [false])) as (l0 & -> & Hin0); [by rewrite subtree_app, Hto|].
    destruct (IH1 (to ++ [true])) as (l1 & -> & Hin1); [by rewrite subtree_app, Hto|].
    simpl. exists (l0 ++ l1). split; [done|].
    intros v [?|?]%elem_of_app; auto.
Qed.

(** On a consistent tree [image] does not throw, from any node of the tree
    downwards, and returns only live vertices that stand for leaves. *)
Theorem image_defined rt from :
  consistent rt →
  (∃ ns, Rtree.image rt from = Some ns ∧ ∀ v, v ∈ ns → leafVertex rt v) ∧
  (∀ to, is_Some (tree.subtree (Rtree.mRefinements rt) to) →
         ∃ ns, Rtree.imageRecursive rt from to = Some ns ∧ ∀ v, v ∈ ns → leafVertex rt v).
Proof.
  intros Hc.
  assert (Hgen : ∀ to, is_Some (tree.subtree (Rtree.mRefinements rt) to) →
                       ∃ ns, Rtree.imageRecursive rt from to = Some ns ∧
                             ∀ v, v ∈ ns → leafVertex rt v).
  { intros to [sub Hsub]. unfold Rtree.imageRecursive. rewrite Hsub. simpl.
    by apply imageRecursive_sub_defined. }
  split; [|done]. apply (Hgen tree.root). by eexists.
Qed.
End observers.

(** * The optional node value and the outside sink *)

Section sink.
Import Cegar.

End sink.

(** * The further theorems on concrete inputs *)

Example new_shiftTree :
  (rt ← Rtree.new (0, 8)%Z (4, 5)%Z (-7)%Z 1; Rtree.refine rt 0 Interval1D.bisect)
  = Some Run.shiftTree.
Proof. vm_compute. reflexivity. Qed.

Lemma rootTree_consistent : consistent Run.rootTree.
Proof.
  unfold consistent, graph.value, edgesOf. simpl. split; [|split; [|split]].
  - intros v treev [<- <-]%lookup_singleton_Some. by eexists.
  - intros treev x Hx. exists 0. destruct treev; [done|]. done.
  - intros v w treev [<- <-]%lookup_singleton_Some [<- _]%lookup_singleton_Some. done.
  - intros a b [= -> ->]%list_elem_of_singleton. split; by eexists.
Qed.

Lemma rootTree_edgeSound : edgeSound Run.rootTree.
Proof.
  intros a b [= -> ->]%list_elem_of_singleton. eexists. split; vm_compute; reflexivity.
Qed.

Lemma refine_removes_handle_witness :
  Rtree.refine Run.rootTree 0 Interval1D.bisect = Some Run.splitTree ∧
  Rtree.nodeValue Run.splitTree 0 = None ∧
  Rtree.preimage Run.splitTree 0 = [] ∧
  Rtree.postimage Run.splitTree 0 = [] ∧
  ∀ a, (0 ∉ Rtree.preimage Run.splitTree a) ∧ (0 ∉ Rtree.postimage Run.splitTree a).
Proof.
  split; [vm_compute; reflexivity|].
  apply (refine_removes_handle Run.rootTree 0 Interval1D.bisect). vm_compute. reflexivity.
Defined.

Lemma refine_keeps_others_witness :
  ∃ rt', Rtree.refine Run.splitTree 1 Interval1D.bisect = Some rt' ∧
         (∀ a x, a ≠ 1 → Rtree.nodeValue Run.splitTree a = Some x →
                 Rtree.nodeValue rt' a = Some x) ∧
         (∀ a b, a ≠ 1 → b ≠ 1 →
                 is_Some (Rtree.nodeValue Run.splitTree a) →
                 is_Some (Rtree.nodeValue Run.splitTree b) →
                 (b ∈ Rtree.postimage rt' a ↔ b ∈ Rtree.postimage Run.splitTree a)).
Proof.
  eexists. split; [vm_compute; reflexivity|].
  apply (refine_keeps_others Run.splitTree 1 Interval1D.bisect). vm_compute. reflexivity.
Defined.

Lemma refine_consistent_witness :
  consistent Run.rootTree ∧
  Rtree.refine Run.rootTree 0 Interval1D.bisect = Some Run.splitTree ∧
  consistent Run.splitTree.
Proof.
  split; [apply rootTree_consistent|]. split; [vm_compute; reflexivity|].
  apply (refine_consistent Run.rootTree 0 Interval1D.bisect Run.splitTree).
  - apply rootTree_consistent.
  - vm_compute. reflexivity.
Defined.

Lemma refine_edgeSound_witness :
  edgeSound Run.rootTree ∧
  Rtree.refine Run.rootTree 0 Interval1D.bisect = Some Run.splitTree ∧
  edgeSound Run.splitTree.
Proof.
  split; [apply rootTree_edgeSound|]. split; [vm_compute; reflexivity|].
  apply (refine_edgeSound Run.rootTree 0 Interval1D.bisect Run.splitTree).
  - apply rootTree_edgeSound.
  - vm_compute. reflexivity.
Defined.

Lemma refine_growth_witness :
  Rtree.refine Run.rootTree 0 Interval1D.bisect = Some Run.splitTree ∧
  tree.size (Rtree.tree Run.splitTree) = tree.size (Rtree.tree Run.rootTree) + 2 ∧
  size (graph.vertexMap (Rtree.leafMapping Run.splitTree))
  = size (graph.vertexMap (Rtree.leafMapping Run.rootTree)) + 1.
Proof.
  split; [vm_compute; reflexivity|].
  apply (refine_growth Run.rootTree 0 Interval1D.bisect Run.splitTree).
  vm_compute. reflexivity.
Defined.

Lemma refine_returns_iff_witness :
  consistent Run.rootTree ∧
  (∀ tv, Rtree.nodeValue Run.rootTree 0 = Some tv →
         (is_Some (Rtree.refine Run.rootTree 0 Interval1D.bisect) ↔
          length (Interval1D.bisect (Rtree.getEnclosure tv)) ≤ 2)) ∧
  (Rtree.nodeValue Run.rootTree 0 = None →
   Rtree.refine Run.rootTree 0 Interval1D.bisect = None).
Proof.
  split; [apply rootTree_consistent|].
  apply (refine_returns_iff Run.rootTree 0 Interval1D.bisect), rootTree_consistent.
Defined.

Lemma leaves_all_vertices_witness :
  consistent Run.rootTree ∧
  ∃ ls, Rtree.leaves_all Run.rootTree = Some ls ∧ NoDup ls ∧
        ∀ v, v ∈ ls ↔ is_Some (graph.value (Rtree.leafMapping Run.rootTree) v).
Proof.
  split; [apply rootTree_consistent|].
  apply (leaves_all_vertices Run.rootTree), rootTree_consistent.
Defined.

Lemma leaves_of_leaf_witness :
  consistent Run.rootTree ∧
  is_Some (graph.value (Rtree.leafMapping Run.rootTree) 0) ∧
  Rtree.leaves Run.rootTree 0 = Some [0].
Proof.
  split; [apply rootTree_consistent|]. split; [by eexists|].
  apply (leaves_of_leaf Run.rootTree 0); [apply rootTree_consistent|by eexists].
Defined.

Lemma image_members_witness :
  Rtree.image Run.splitTree (0, 1)%Z = Some [1] ∧
  ∀ v, v ∈ [1] ↔
       ∃ p x, tree.subtree (Rtree.mRefinements Run.splitTree) p = Some (tree.Leaf x) ∧
              graph.findVertex (Rtree.mMappings Run.splitTree) p = Some v ∧
              notPruned Run.splitTree (0, 1)%Z p.
Proof.
  split; [vm_compute; reflexivity|].
  apply (image_members Run.splitTree (0, 1)%Z [1]). vm_compute. reflexivity.
Defined.

Lemma search_valid_witness :
  RtreeCegar.findCounterexample 3 Run.splitTree [1] [] = Some [1; 2] ∧
  (∃ n0, head [1; 2] = Some n0 ∧ n0 ∈ [1]) ∧
  (∀ i a b, [1; 2] !! i = Some a → [1; 2] !! S i = Some b →
            b ∈ Rtree.postimage Run.splitTree a) ∧
  (∃ nk tv, last [1; 2] = Some nk ∧ Rtree.nodeValue Run.splitTree nk = Some tv ∧
            definitely (Rtree.isSafe tv) = false) ∧
  (∀ i a, [1; 2] !! i = Some a → S i < length [1; 2] →
          (∃ tv, Rtree.nodeValue Run.splitTree a = Some tv ∧
                 definitely (Rtree.isSafe tv) = true) ∧
          RtreeCegar.findLoop Run.splitTree a (take i [1; 2]) = Some false).
Proof.
  split; [vm_compute; reflexivity|].
  apply (search_valid 3 Run.splitTree [1] [1; 2]).
  - vm_compute. reflexivity.
  - discriminate.
Defined.

Lemma first_isSpurious_length_witness :
  RtreeCegar.isSpurious Run.splitTree [1; 2] [1] 1
  = RtreeCegar.isSpurious Run.splitTree [2; 2] [1] 1 ∧
  ∀ k, RtreeCegar.isSpurious Run.splitTree [1; 2] [1] 1 = Some k → k = KTrue ∨ k = KFalse.
Proof. apply (first_isSpurious_length Run.splitTree [1; 2] [2; 2] [1] 1). reflexivity. Defined.

Lemma first_cegar_result_witness :
  RtreeCegar.cegar 2 3 Run.splitTree [1] 1 Interval1D.bisect 9 = Some [1; 2] ∧
  ([1; 2] = [] ∨
   ∃ rt', tree.size (Rtree.tree rt') < 9 ∧
          RtreeCegar.findCounterexample 3 rt' [1] [] = Some [1; 2] ∧
          RtreeCegar.isSpurious rt' [1; 2] [1] 1 = Some KFalse).
Proof.
  split; [vm_compute; reflexivity|].
  apply (first_cegar_result 2 3 Run.splitTree [1] 1 Interval1D.bisect 9 [1; 2]).
  vm_compute. reflexivity.
Defined.

Lemma first_cegar_stuck_witness :
  RtreeCegar.findCounterexample 3 Run.splitTree [2] [] = Some [2] ∧
  RtreeCegar.isSpurious Run.splitTree [2] [2] 1 = Some KTrue ∧
  RtreeCegar.cegar 7 3 Run.splitTree [2] 1 Interval1D.bisect 9 = None.
Proof.
  split; [vm_compute; reflexivity|]. split; [vm_compute; reflexivity|].
  apply (first_cegar_stuck 3 Run.splitTree [2] 1 Interval1D.bisect 9 2 KTrue).
  - vm_compute. lia.
  - vm_compute. reflexivity.
  - vm_compute. reflexivity.
  - reflexivity.
Defined.

Lemma first_cegar_stale_image_witness :
  ∃ rt',
    Rtree.refine Run.shiftTree 2 Interval1D.bisect = Some rt' ∧
    RtreeCegar.findCounterexample 3 Run.shiftTree [2] [] = Some [2; 1] ∧
    RtreeCegar.isSpurious Run.shiftTree [2; 1] [2] 1 = Some KTrue ∧
    (∀ fuel, RtreeCegar.cegar (S fuel) 3 Run.shiftTree [2] 1 Interval1D.bisect 9
             = RtreeCegar.cegar fuel 3 rt' [2] 1 Interval1D.bisect 9) ∧
    tree.size (Rtree.tree rt') < 9 ∧
    Rtree.nodeValue rt' 2 = None ∧
    (∀ d path, RtreeCegar.findCounterexample d rt' [2] path = None) ∧
    (∀ fuel, RtreeCegar.cegar fuel 3 Run.shiftTree [2] 1 Interval1D.bisect 9 = None).
Proof.
  eexists. split; [vm_compute; reflexivity|].
  split; [vm_compute; reflexivity|]. split; [vm_compute; reflexivity|].
  apply (first_cegar_stale_image 3 Run.shiftTree 2 1 [] 1 Interval1D.bisect 9 KTrue).
  - vm_compute. lia.
  - vm_compute. reflexivity.
  - vm_compute. reflexivity.
  - reflexivity.
  - vm_compute. reflexivity.
Defined.

Lemma isSpurious_two_valued_witness :
  Cegar.isSpurious Run.splitState [1; 2] [1] 1 = Some KTrue ∧
  (KTrue = KTrue ∨ KTrue = KFalse) ∧ (definitely (knot KTrue) = true ↔ KTrue = KFalse).
Proof.
  split; [vm_compute; reflexivity|].
  apply (isSpurious_two_valued (Api := Run.api) Run.splitState [1; 2] [1] 1 KTrue).
  vm_compute. reflexivity.
Defined.

Lemma cegar_no_progress_witness :
  Cegar.cegar (0, 1)%Z 1 Interval1D.bisect (λ _, []) 9 7 3 Run.splitState = None.
Proof.
  apply (cegar_no_progress (Api := Run.api) (0, 1)%Z 1 Interval1D.bisect (λ _, []) 9 3
           Run.splitState [1; 2]).
  - vm_compute. lia.
  - vm_compute. reflexivity.
  - discriminate.
  - intros (s & back & Hs & _ & Hd & _). vm_compute in Hs. injection Hs as <-. done.
  - intros n Hn. by apply elem_of_nil in Hn.
Defined.

Lemma cegar_result_witness :
  Cegar.cegar (0, 1)%Z 1 Interval1D.bisect Run.allButLast 9 4 4 Run.splitState
  = Some (KFalse, [4]) ∧
  (KFalse ≠ KFalse → [4] = []) ∧
  (KFalse = KFalse →
   ∃ rtree' initialImage' n0 back,
     head [4] = Some n0 ∧ n0 ∈ initialImage' ∧
     isPath rtree' [4] ∧ loopFree rtree' [4] ∧
     last [4] = Some back ∧ Cegar.isSafe rtree' back = KFalse ∧
     Cegar.isSpurious rtree' [4] initialImage' 1 = Some KFalse).
Proof.
  split; [vm_compute; reflexivity|].
  apply (cegar_result (Api := Run.api) (0, 1)%Z 1 Interval1D.bisect Run.allButLast 9 4 4
           Run.splitState KFalse [4]).
  vm_compute. reflexivity.
Defined.

Lemma observers_defined_witness :
  consistent Run.rootTree ∧
  (is_Some (Rtree.nodeValue Run.rootTree 0) ↔
   is_Some (graph.value (Rtree.leafMapping Run.rootTree) 0)).
Proof.
  split; [apply rootTree_consistent|].
  apply (observers_defined Run.rootTree), rootTree_consistent.
Defined.

Lemma image_defined_witness :
  consistent Run.rootTree ∧
  ∃ ns, Rtree.image Run.rootTree (0, 1)%Z = Some ns ∧ ∀ v, v ∈ ns → leafVertex Run.rootTree v.
Proof.
  split; [apply rootTree_consistent|].
  exact (proj1 (image_defined Run.rootTree (0, 1)%Z rootTree_consistent)).
Defined.

